(** * osc-progress: OSC 9;4 terminal progress sequences

    A shallow embedding of [src/oscProgress.ts] and the properties of its
    label sanitizer, capability heuristic, sequence scanner and one-shot
    emitter.

    Strings are JavaScript strings: finite sequences of UTF-16 code units.
    A code unit is an [N]; a string is a [list N].  Indices are [nat];
    [String.prototype.indexOf] returns [option nat] ([None] for the source's
    [-1]). *)

From Stdlib Require Import QArith Qcanon Qround DecimalString.
From Stdlib Require Import Ascii String.
From Equations.Prop Require Import Equations Logic.
From stdpp Require Import gmap list.

Local Open Scope nat_scope.

(** ** JavaScript strings *)

Abbreviation char := N (only parsing).
Abbreviation jsstring := (list N) (only parsing).

(** An ASCII literal as a JavaScript string. *)
Fixpoint str (s : string) : jsstring :=
  match s with
  | EmptyString => []
  | String a s' => N_of_ascii a :: str s'
  end.

Module JsString.

Definition eqb_char (a b : char) : bool := N.eqb a b.

(** [pat] is a prefix of [s]: the test behind every substring search. *)
Fixpoint starts_with (pat s : jsstring) : bool :=
  match pat, s with
  | [], _ => true
  | _ :: _, [] => false
  | p :: pat', c :: s' => eqb_char p c && starts_with pat' s'
  end.

(** First position [>= i] at which [pat] occurs in [s], positions counted
    from [i] at the head of [s]. *)
Fixpoint indexOf_from (pat s : jsstring) (i : nat) : option nat :=
  if starts_with pat s then Some i
  else match s with
       | [] => None
       | _ :: s' => indexOf_from pat s' (S i)
       end.

(** [text.indexOf(pat, from)]; [from] is clamped to the length as
    ECMAScript does. *)
Definition indexOf (text pat : jsstring) (from : nat) : option nat :=
  let from := Nat.min from (length text) in
  indexOf_from pat (drop from text) from.

(** [text.includes(pat)]. *)
Definition includes (text pat : jsstring) : bool :=
  match indexOf text pat 0 with Some _ => true | None => false end.

(** [text.slice(a, b)] and [text.slice(a)] for non-negative indices. *)
Definition slice (text : jsstring) (a b : nat) : jsstring :=
  take (b - a) (drop a text).
Definition slice_from (text : jsstring) (a : nat) : jsstring :=
  drop a text.

(** [s.replaceAll(pat, repl)] for a non-empty string pattern: the
    occurrences are found left to right and do not overlap.  [skip]
    counts the code units of a matched occurrence still to be passed. *)
Fixpoint replaceAll_skip (pat repl : jsstring) (skip : nat) (s : jsstring)
  : jsstring :=
  match s with
  | [] => []
  | c :: s' =>
      match skip with
      | S k => replaceAll_skip pat repl k s'
      | 0 =>
          if starts_with pat s
          then repl ++ replaceAll_skip pat repl (length pat - 1) s'
          else c :: replaceAll_skip pat repl 0 s'
      end
  end.

Definition replaceAll (s pat repl : jsstring) : jsstring :=
  replaceAll_skip pat repl 0 s.

(** [s.split(sep)] for a non-empty separator; [cur] is the piece being
    collected. *)
Fixpoint split_skip (sep : jsstring) (skip : nat) (cur s : jsstring)
  : list jsstring :=
  match s with
  | [] => [cur]
  | c :: s' =>
      match skip with
      | S k => split_skip sep k cur s'
      | 0 =>
          if starts_with sep s
          then cur :: split_skip sep (length sep - 1) [] s'
          else split_skip sep 0 (cur ++ [c]) s'
      end
  end.

Definition split (s sep : jsstring) : list jsstring :=
  split_skip sep 0 [] s.

(** [pieces.join(glue)]. *)
Fixpoint join (pieces : list jsstring) (glue : jsstring) : jsstring :=
  match pieces with
  | [] => []
  | [p] => p
  | p :: rest => p ++ glue ++ join rest glue
  end.

(** ECMAScript WhiteSpace and LineTerminator code units, the ones
    [String.prototype.trim] removes. *)
Definition is_white_space (c : char) : bool :=
  ((9 <=? c) && (c <=? 13) || (c =? 32) || (c =? 160) || (c =? 5760)
   || (8192 <=? c) && (c <=? 8202) || (c =? 8232) || (c =? 8233)
   || (c =? 8239) || (c =? 8287) || (c =? 12288) || (c =? 65279))%N.

Fixpoint trimStart (s : jsstring) : jsstring :=
  match s with
  | [] => []
  | c :: s' => if is_white_space c then trimStart s' else s
  end.

Fixpoint trimEnd (s : jsstring) : jsstring :=
  match s with
  | [] => []
  | c :: s' =>
      match trimEnd s' with
      | [] => if is_white_space c then [] else [c]
      | r => c :: r
      end
  end.

Definition trim (s : jsstring) : jsstring := trimEnd (trimStart s).

End JsString.
Import JsString.

(** ** Wire constants *)

Definition ESC : char := 27%N.
Definition BEL : char := 7%N.
Definition C1ST : char := 156%N.
Definition BACKSLASH : char := 92%N.
Definition RBRACKET : char := 93%N.

(** [OSC_PROGRESS_PREFIX = '\u001b]9;4;'] *)
Definition OSC_PROGRESS_PREFIX : jsstring := ESC :: str "]9;4;".
(** [OSC_PROGRESS_ST = '\u001b\\'] *)
Definition OSC_PROGRESS_ST : jsstring := [ESC; BACKSLASH].
(** [OSC_PROGRESS_BEL = '\u0007'] *)
Definition OSC_PROGRESS_BEL : jsstring := [BEL].
(** [OSC_PROGRESS_C1_ST = '\u009c'] *)
Definition OSC_PROGRESS_C1_ST : jsstring := [C1ST].

(** The terminator kinds: ['st' | 'bel'] when emitting
    ([OscProgressTerminator]), and ['c1st'] as well when scanning. *)
Inductive Terminator := st | bel | c1st.

Definition resolveTerminator (terminator : option Terminator) : jsstring :=
  match terminator with
  | Some bel => OSC_PROGRESS_BEL
  | _ => OSC_PROGRESS_ST
  end.

(** ** Label sanitizer *)

Definition sanitizeLabel (label : jsstring) : jsstring :=
  let withoutSt := replaceAll label OSC_PROGRESS_ST [] in
  let withoutEscape := join (split withoutSt [ESC]) [] in
  let withoutTerminators :=
    replaceAll (replaceAll withoutEscape OSC_PROGRESS_BEL [])
               OSC_PROGRESS_C1_ST [] in
  trim (replaceAll withoutTerminators [RBRACKET] []).

(** ** Sequence scanner *)

Module Seq.
Record OscProgressSequence := {
  start : nat;            (* inclusive start index *)
  end_ : nat;             (* exclusive end index *)
  raw : jsstring;         (* the matched substring *)
  terminator : Terminator (* which terminator was met *)
}.
End Seq.
Abbreviation OscProgressSequence := Seq.OscProgressSequence.

Record Candidate := { endExclusive : nat; cand_terminator : Terminator }.

(** [candidates.sort((a, b) => a.endExclusive - b.endExclusive)]: a stable
    sort by [endExclusive]. *)
Fixpoint sort_insert (c : Candidate) (l : list Candidate) : list Candidate :=
  match l with
  | [] => [c]
  | d :: l' =>
      if endExclusive c <=? endExclusive d then c :: l
      else d :: sort_insert c l'
  end.

Definition sort_candidates (l : list Candidate) : list Candidate :=
  foldr sort_insert [] l.

(** The [candidates] array of one iteration, in push order. *)
Definition candidates (text : jsstring) (after : nat) : list Candidate :=
  (match indexOf text OSC_PROGRESS_ST after with
   | Some stStart =>
       [{| endExclusive := stStart + length OSC_PROGRESS_ST;
           cand_terminator := st |}]
   | None => []
   end)
  ++ (match indexOf text OSC_PROGRESS_BEL after with
      | Some belStart =>
          [{| endExclusive := belStart + length OSC_PROGRESS_BEL;
              cand_terminator := bel |}]
      | None => []
      end)
  ++ (match indexOf text OSC_PROGRESS_C1_ST after with
      | Some c1Start =>
          [{| endExclusive := c1Start + length OSC_PROGRESS_C1_ST;
              cand_terminator := c1st |}]
      | None => []
      end).

Definition prefixLen : nat := length OSC_PROGRESS_PREFIX.

(** What [indexOf] finds lies at or after [from]; the scanner's loop
    measure decreases because of it. *)
Lemma indexOf_from_ge pat s i j : indexOf_from pat s i = Some j → i ≤ j.
Proof.
  revert i; induction s as [|c s IH]; intros i; simpl.
  - destruct (starts_with pat []); [intros [= <-]; lia | done].
  - destruct (starts_with pat (c :: s)); [intros [= <-]; lia |].
    intros H%IH; lia.
Qed.

Lemma indexOf_from_lt pat s i j :
  pat ≠ [] → indexOf_from pat s i = Some j → j + length pat ≤ i + length s.
Proof.
  intros Hpat. revert i; induction s as [|c s IH]; intros i; simpl.
  - destruct pat; [done | simpl; done].
  - destruct (starts_with pat (c :: s)) eqn:E.
    + intros [= <-]. clear IH.
      assert (length pat ≤ length (c :: s)); [|simpl in *; lia].
      clear Hpat. revert E. generalize (c :: s) as l.
      induction pat as [|p pat IHp]; intros [|d l]; simpl; try lia; try done.
      intros [_ H]%andb_prop. apply IHp in H. lia.
    + intros H%IH; lia.
Qed.

Lemma indexOf_ge text pat from j :
  from ≤ length text → indexOf text pat from = Some j → from ≤ j.
Proof.
  unfold indexOf; intros Hle H%indexOf_from_ge; lia.
Qed.

Lemma indexOf_bound text pat from j :
  pat ≠ [] → indexOf text pat from = Some j → j + length pat ≤ length text.
Proof.
  unfold indexOf; intros Hpat H%indexOf_from_lt; [|done].
  rewrite length_drop in H. lia.
Qed.

Lemma candidates_after text after c :
  after ≤ length text → c ∈ candidates text after → after < endExclusive c.
Proof.
  intros Hle. unfold candidates. rewrite !elem_of_app.
  intros [H|[H|H]];
    match type of H with
    | _ ∈ match ?o with _ => _ end =>
        destruct o as [k|] eqn:E; [|by apply elem_of_nil in H]
    end;
    apply list_elem_of_singleton in H; subst c; simpl;
    apply indexOf_ge in E; lia.
Qed.

Lemma sort_insert_elem c l x : x ∈ sort_insert c l ↔ x = c ∨ x ∈ l.
Proof.
  induction l as [|d l IH]; simpl.
  - rewrite list_elem_of_singleton, elem_of_nil. tauto.
  - destruct (endExclusive c <=? endExclusive d).
    + rewrite (elem_of_cons (d :: l)). tauto.
    + rewrite !elem_of_cons, IH. tauto.
Qed.

Lemma sort_candidates_elem l x : x ∈ sort_candidates l ↔ x ∈ l.
Proof.
  induction l as [|d l IH]; simpl; [done|].
  rewrite sort_insert_elem, IH, elem_of_cons. tauto.
Qed.

(** The [while (searchFrom < text.length)] loop of
    [findOscProgressSequences]; it terminates because [searchFrom] grows. *)
Equations? find_loop (text : jsstring) (searchFrom : nat)
  : list OscProgressSequence by wf (length text - searchFrom) lt :=
  find_loop text searchFrom with decide (searchFrom < length text) := {
    | right _ => []
    | left Hlt
        with inspect (indexOf text OSC_PROGRESS_PREFIX searchFrom) := {
        | exist _ None _ => []
        | exist _ (Some start) Hstart
            with inspect (sort_candidates
                            (candidates text (start + prefixLen))) := {
            | exist _ [] _ => find_loop text (start + prefixLen)
            | exist _ (best :: _) Hbest =>
                {| Seq.start := start;
                   Seq.end_ := endExclusive best;
                   Seq.raw := slice text start (endExclusive best);
                   Seq.terminator := cand_terminator best |}
                :: find_loop text (endExclusive best) } } }.
Proof.
  - apply indexOf_ge in Hstart; [|lia]. unfold prefixLen; simpl. lia.
  - assert (Hb : best ∈ candidates text (start + prefixLen)).
    { apply sort_candidates_elem. rewrite Hbest. left. }
    apply indexOf_ge in Hstart as Hge; [|lia].
    apply indexOf_bound in Hstart; [|done].
    apply candidates_after in Hb; [|unfold prefixLen; lia]. lia.
Qed.

Definition findOscProgressSequences (text : jsstring)
  : list OscProgressSequence :=
  find_loop text 0.


(** ** Stripping *)

(** [Math.min(...ends)] for a non-empty [ends]. *)
Definition min_of (e : nat) (es : list nat) : nat := foldr Nat.min e es.

(** The [ends] array of one iteration of [stripOscProgress], in push
    order. *)
Definition strip_ends (current : jsstring) (after : nat) : list nat :=
  (match indexOf current OSC_PROGRESS_ST after with
   | Some stStart => [stStart + length OSC_PROGRESS_ST]
   | None => []
   end)
  ++ (match indexOf current OSC_PROGRESS_BEL after with
      | Some belStart => [belStart + length OSC_PROGRESS_BEL]
      | None => []
      end)
  ++ (match indexOf current OSC_PROGRESS_C1_ST after with
      | Some c1Start => [c1Start + length OSC_PROGRESS_C1_ST]
      | None => []
      end).

Definition cutEnd (current : jsstring) (start : nat) : nat :=
  let after := start + prefixLen in
  match strip_ends current after with
  | [] => length current
  | e :: es => min_of e es
  end.

Lemma strip_ends_after current after e :
  after ≤ length current → e ∈ strip_ends current after → after < e.
Proof.
  intros Hle. unfold strip_ends. rewrite !elem_of_app.
  intros [H|[H|H]];
    match type of H with
    | _ ∈ match ?o with _ => _ end =>
        destruct o as [k|] eqn:E; [|by apply elem_of_nil in H]
    end;
    apply list_elem_of_singleton in H; subst e; simpl;
    apply indexOf_ge in E; lia.
Qed.

Lemma min_of_elem e es : min_of e es ∈ e :: es.
Proof.
  induction es as [|x es IH]; simpl; [left|].
  destruct (Nat.min_spec x (min_of e es)) as [[_ ->]|[_ ->]].
  - right; left.
  - apply elem_of_cons in IH as [->|IH]; [left | right; right; done].
Qed.

Lemma cutEnd_after current start :
  indexOf current OSC_PROGRESS_PREFIX 0 = Some start →
  start + prefixLen ≤ cutEnd current start ∧ start + prefixLen ≤ length current.
Proof.
  intros H. apply indexOf_bound in H; [|done].
  split; [|exact H]. unfold cutEnd.
  destruct (strip_ends current (start + prefixLen)) as [|e es] eqn:E; [exact H|].
  pose proof (min_of_elem e es) as Hin. rewrite <- E in Hin.
  apply strip_ends_after in Hin; [lia | exact H].
Qed.

(** The loop of [stripOscProgress].  [current.includes(PREFIX)] is
    [current.indexOf(PREFIX) !== -1], so the loop test and the lookup of
    [start] are one match here.  Each round removes at least the prefix, so
    the loop ends. *)
Equations? strip_loop (current : jsstring) : jsstring
  by wf (length current) lt :=
  strip_loop current
    with inspect (indexOf current OSC_PROGRESS_PREFIX 0) := {
    | exist _ None _ => current
    | exist _ (Some start) Hstart =>
        strip_loop (slice current 0 start
                    ++ slice_from current (cutEnd current start)) }.
Proof.
  apply cutEnd_after in Hstart as [H1 H2].
  unfold slice, slice_from.
  rewrite length_app, length_take, !length_drop.
  unfold prefixLen in *; simpl in *. lia.
Qed.

Definition stripOscProgress (text : jsstring) : jsstring := strip_loop text.

Definition sanitizeOscProgress (text : jsstring) (keepOsc : bool) : jsstring :=
  if keepOsc then text else stripOscProgress text.

(** ** Numbers *)

(** A JavaScript number: NaN, an infinity, or a finite value.  Finite
    values are kept as exact rationals; the rounding of an arithmetic result
    to a double is the host's [fround] below.  The sign of zero is not
    kept: both zeros print as [0].  A finite result too large for a double
    is not turned into an infinity; none arises in this program, which
    divides a difference of clock readings by at least 1000 and multiplies
    by 100. *)
Inductive number :=
| NaN
| Inf (negative : bool)
| Fin (q : Qc).

(** ** The host *)

(** What the program takes from its JavaScript host and process. *)
Class Host := {
  (** [String.prototype.toLowerCase] *)
  toLowerCase : jsstring → jsstring;
  (** the double nearest to an exact arithmetic result *)
  fround : Qc → Qc;
  fround_nonneg : ∀ q : Qc, (0 ≤ q)%Qc → (0 ≤ fround q)%Qc;
  (** [process.env] and [process.stdout.isTTY] *)
  process_env : gmap jsstring jsstring;
  process_stdout_isTTY : bool
}.

Module JsNumber.

#[global] Instance number_eq_dec : EqDecision number.
Proof. solve_decision. Defined.

Definition of_Z (z : Z) : number := Fin (Q2Qc (inject_Z z)).

Definition is_neg (q : Qc) : bool := bool_decide (q < 0)%Qc.

(** [Math.min(a, b)] and [Math.max(a, b)]: NaN if either is NaN. *)
Definition Math_min (a b : number) : number :=
  match a, b with
  | NaN, _ | _, NaN => NaN
  | Inf true, _ | _, Inf true => Inf true
  | Inf false, x | x, Inf false => x
  | Fin x, Fin y => if bool_decide (x ≤ y)%Qc then a else b
  end.

Definition Math_max (a b : number) : number :=
  match a, b with
  | NaN, _ | _, NaN => NaN
  | Inf false, _ | _, Inf false => Inf false
  | Inf true, x | x, Inf true => x
  | Fin x, Fin y => if bool_decide (x ≤ y)%Qc then b else a
  end.

(** [Math.round(x)]: the nearest integer, a tie going up. *)
Definition Math_round (x : number) : number :=
  match x with
  | Fin q => of_Z (Qfloor (q + Q2Qc (1 # 2))%Qc)
  | _ => x
  end.

(** [a / b] *)
Definition div `{Host} (a b : number) : number :=
  match a, b with
  | NaN, _ | _, NaN => NaN
  | Inf _, Inf _ => NaN
  | Inf s, Fin y => Inf (xorb s (is_neg y))
  | Fin _, Inf _ => Fin 0%Qc
  | Fin x, Fin y =>
      if bool_decide (y = 0%Qc)
      then (if bool_decide (x = 0%Qc) then NaN else Inf (is_neg x))
      else Fin (fround (x / y)%Qc)
  end.

(** [a * b] *)
Definition mul `{Host} (a b : number) : number :=
  match a, b with
  | NaN, _ | _, NaN => NaN
  | Inf s, Inf t => Inf (xorb s t)
  | Inf s, Fin y | Fin y, Inf s =>
      if bool_decide (y = 0%Qc) then NaN else Inf (xorb s (is_neg y))
  | Fin x, Fin y => Fin (fround (x * y)%Qc)
  end.

(** Decimal digits of a natural number and of an integer. *)
Definition N_toString (n : N) : jsstring :=
  str (NilZero.string_of_uint (N.to_uint n)).

Definition Z_toString (z : Z) : jsstring :=
  match z with
  | Zneg p => str "-" ++ N_toString (Npos p)
  | _ => N_toString (Z.to_N z)
  end.

(** [Number::toString] as a template literal applies it.  Integers, NaN
    and the infinities print as ECMAScript prints them (integers below
    [10^21]).  A finite value that is not an integer never reaches a
    template literal in this program, where every percent is printed
    after [Math.round]; its shortest decimal expansion is not modelled and
    it prints as its integer part. *)
Definition Number_toString (x : number) : jsstring :=
  match x with
  | NaN => str "NaN"
  | Inf false => str "Infinity"
  | Inf true => str "-Infinity"
  | Fin q => Z_toString (Qfloor q)
  end.

End JsNumber.
Import JsNumber.

(** ** Capability heuristic *)

Module Support.
Record OscProgressSupportOptions := {
  force : option bool;
  disabled : option bool;
  disableEnvVar : option jsstring;
  forceEnvVar : option jsstring
}.
End Support.
Abbreviation OscProgressSupportOptions := Support.OscProgressSupportOptions.

(** Truthiness of an optional boolean and of an optional string: absent,
    [false] and the empty string are falsy. *)
Definition truthy_bool (b : option bool) : bool :=
  match b with Some true => true | _ => false end.

Definition truthy_string (s : option jsstring) : bool :=
  match s with Some (_ :: _) => true | _ => false end.

(** [name && env[name] === '1'] *)
Definition env_var_is_1 (env : gmap jsstring jsstring)
    (name : option jsstring) : bool :=
  match name with
  | Some n => truthy_string name && bool_decide (env !! n = Some (str "1"))
  | None => false
  end.

Definition supportsOscProgress `{Host} (env : gmap jsstring jsstring)
    (isTty : bool) (options : OscProgressSupportOptions) : bool :=
  if negb isTty then false
  else if truthy_bool (Support.disabled options) then false
  else if truthy_bool (Support.force options) then true
  else if env_var_is_1 env (Support.disableEnvVar options) then false
  else if env_var_is_1 env (Support.forceEnvVar options) then true
  else
    let termProgram :=
      toLowerCase (default [] (env !! str "TERM_PROGRAM")) in
    if includes termProgram (str "ghostty") then true
    else if includes termProgram (str "wezterm") then true
    else if truthy_string (env !! str "WT_SESSION") then true
    else false.

(** ** One-shot emitter *)

Module Opt.
(** [OscProgressOptions]; the [write] callback is the emitter's log of
    writes. *)
Record OscProgressOptions := {
  support : OscProgressSupportOptions;
  label : option jsstring;
  targetMs : option number;
  env : option (gmap jsstring jsstring);
  isTty : option bool;
  indeterminate : option bool;
  state : option N;
  terminator : option Terminator
}.
End Opt.
Abbreviation OscProgressOptions := Opt.OscProgressOptions.

(** ['Working…'] *)
Definition default_label : jsstring := str "Working" ++ [8230%N].

(** The two template literals of [send]. *)
Definition frame (st : N) (percent : option number)
    (cleanLabel end_ : jsstring) : jsstring :=
  match percent with
  | None =>
      OSC_PROGRESS_PREFIX ++ N_toString st ++ str ";;" ++ cleanLabel ++ end_
  | Some clamped =>
      OSC_PROGRESS_PREFIX ++ N_toString st ++ str ";"
        ++ Number_toString clamped ++ str ";" ++ cleanLabel ++ end_
  end.

(** [Math.max(0, Math.min(100, Math.round(percent)))] *)
Definition clampRound (percent : number) : number :=
  Math_max (of_Z 0) (Math_min (of_Z 100) (Math_round percent)).

Inductive Mode := Unsupported | Indeterminate | Determinate.

(** What the closures of one [startOscProgress] call share: the captured
    constants, the interval timer (live or cleared), the [stopped] flag, and
    the sequence of strings passed to [write] so far. *)
Record Emitter := {
  mode : Mode;
  cleanLabel : jsstring;
  em_end : jsstring;
  em_state : N;
  target : number;
  startedAt : Z;
  timer : bool;
  stopped : bool;
  writes : list jsstring
}.

Definition write (e : Emitter) (data : jsstring) : Emitter :=
  {| mode := mode e; cleanLabel := cleanLabel e; em_end := em_end e;
     em_state := em_state e; target := target e; startedAt := startedAt e;
     timer := timer e; stopped := stopped e;
     writes := writes e ++ [data] |}.

Definition send (e : Emitter) (st : N) (percent : option number) : Emitter :=
  match percent with
  | None => write e (frame st None (cleanLabel e) (em_end e))
  | Some percent =>
      let clamped := clampRound percent in
      write e (frame st (Some clamped) (cleanLabel e) (em_end e))
  end.

(** [startOscProgress(options)], called when [Date.now()] is [now]: the
    emitter after the synchronous part of the call. *)
Definition startOscProgress `{Host} (options : OscProgressOptions) (now : Z)
  : Emitter :=
  let label := default default_label (Opt.label options) in
  let targetMs := default (of_Z (10 * 60000)) (Opt.targetMs options) in
  let indeterminate := truthy_bool (Opt.indeterminate options) in
  let state := default 1%N (Opt.state options) in
  let terminator := Opt.terminator options in
  let e0 := {| mode := Unsupported; cleanLabel := sanitizeLabel label;
               em_end := resolveTerminator terminator; em_state := state;
               target := Math_max targetMs (of_Z 1000); startedAt := now;
               timer := false; stopped := false; writes := [] |} in
  if negb (supportsOscProgress (default process_env (Opt.env options))
             (default process_stdout_isTTY (Opt.isTty options))
             (Opt.support options))
  then e0
  else if indeterminate
  then send {| mode := Indeterminate; cleanLabel := cleanLabel e0;
               em_end := em_end e0; em_state := state; target := target e0;
               startedAt := now; timer := false; stopped := false;
               writes := [] |} 3 None
  else send {| mode := Determinate; cleanLabel := cleanLabel e0;
               em_end := em_end e0; em_state := state; target := target e0;
               startedAt := now; timer := true; stopped := false;
               writes := [] |} state (Some (of_Z 0)).

(** The interval callback, run when [Date.now()] is [now].  A cleared
    interval (and a call that never set one) has no callback to run. *)
Definition tick `{Host} (e : Emitter) (now : Z) : Emitter :=
  if timer e then
    let elapsed := of_Z (now - startedAt e) in
    let percent :=
      Math_min (of_Z 99) (mul (div elapsed (target e)) (of_Z 100)) in
    send e (em_state e) (Some percent)
  else e.

(** The returned [stop] function, one definition per branch of
    [startOscProgress]. *)
Definition stop (e : Emitter) : Emitter :=
  match mode e with
  | Unsupported => e
  | Indeterminate => send e 0 (Some (of_Z 0))
  | Determinate =>
      if stopped e then e
      else
        send {| mode := mode e; cleanLabel := cleanLabel e;
                em_end := em_end e; em_state := em_state e;
                target := target e; startedAt := startedAt e;
                timer := false; stopped := true; writes := writes e |}
             0 (Some (of_Z 0))
  end.

(** What can happen to an emitter after [startOscProgress] returned. *)
Inductive Event :=
| Tick (now : Z)   (* the interval fires *)
| Stop.            (* the caller calls [stop()] *)

Definition step `{Host} (e : Emitter) (ev : Event) : Emitter :=
  match ev with
  | Tick now => tick e now
  | Stop => stop e
  end.

Definition run `{Host} (e : Emitter) (evs : list Event) : Emitter :=
  foldl step e evs.

(** ** Stateful controller *)

Module Controller.

(** Modelled from the spec: the stateful controller
    ([createOscProgressController]) is not among the sources; only its
    tests are.  This is the emission gate of section 4.6.1 and
    [setPercent] of section 4.6, with the clock passed in as [now].  The
    stall and clear timers add forced emissions when they fire and are
    left out. *)
Record LastEmitted := {
  le_label : jsstring;
  le_percent : option number;
  le_state : option N;
  le_timestamp : Z;
  hasEmittedAtLeastOnce : bool
}.

Inductive SeenMode := determinate | indeterminate.

Record LastSeen := {
  ls_label : jsstring;
  ls_mode : SeenMode;
  ls_percent : option number
}.

Record Session := {
  supported : bool;
  c_end : jsstring;
  lastSeen : LastSeen;
  lastEmitted : LastEmitted;
  stallEnabled : bool;
  c_writes : list jsstring
}.

(** The fixed throttle interval. *)
Definition THROTTLE : Z := 150.

(** Modelled from the spec: the gate of section 4.6.1, on an already
    sanitized label. *)
Definition gate (last : LastEmitted) (state : N) (percent : option number)
    (clean : jsstring) (now : Z) : bool :=
  negb (hasEmittedAtLeastOnce last)
  || bool_decide (le_state last ≠ Some state)
  || bool_decide (clean ≠ le_label last)
  || (bool_decide (percent ≠ le_percent last)
      && bool_decide (THROTTLE ≤ now - le_timestamp last)%Z).

(** Modelled from the spec: one candidate emission.  The label is
    sanitized first; a forced emission always writes; every write updates
    the last-emitted bookkeeping. *)
Definition emit (force : bool) (state : N) (percent : option number)
    (label : jsstring) (now : Z) (c : Session) : Session :=
  if negb (supported c) then c
  else
    let clean := sanitizeLabel label in
    if force || gate (lastEmitted c) state percent clean now then
      {| supported := supported c; c_end := c_end c;
         lastSeen := lastSeen c;
         lastEmitted := {| le_label := clean; le_percent := percent;
                           le_state := Some state; le_timestamp := now;
                           hasEmittedAtLeastOnce := true |};
         stallEnabled := stallEnabled c;
         c_writes := c_writes c ++ [frame state percent clean (c_end c)] |}
    else c.

(** Modelled from the spec: [setPercent(label, percent)] clamps and
    rounds the percent, records the intent, re-enables stall eligibility
    and emits state 1 subject to the gate. *)
Definition setPercent (label : jsstring) (percent : number) (now : Z)
    (c : Session) : Session :=
  let p := clampRound percent in
  emit false 1 (Some p) label now
    {| supported := supported c; c_end := c_end c;
       lastSeen := {| ls_label := label; ls_mode := determinate;
                      ls_percent := Some p |};
       lastEmitted := lastEmitted c;
       stallEnabled := true;
       c_writes := c_writes c |}.

(** Modelled from the spec: a controller just constructed on a supported
    terminal; nothing has been emitted. *)
Definition create (label : jsstring) (terminator : option Terminator)
  : Session :=
  {| supported := true; c_end := resolveTerminator terminator;
     lastSeen := {| ls_label := label; ls_mode := indeterminate;
                    ls_percent := None |};
     lastEmitted := {| le_label := []; le_percent := None;
                       le_state := None; le_timestamp := 0;
                       hasEmittedAtLeastOnce := false |};
     stallEnabled := false;
     c_writes := [] |}.

End Controller.

(** * Vocabulary of the statements *)

(** ** Occurrences *)

(** [pat] occurs in [text] at index [k]. *)
Definition occ (pat text : jsstring) (k : nat) : Prop :=
  ∀ i c, pat !! i = Some c → text !! (k + i) = Some c.

(** The code units of each terminator kind. *)
Definition tstr (k : Terminator) : jsstring :=
  match k with
  | st => OSC_PROGRESS_ST
  | bel => OSC_PROGRESS_BEL
  | c1st => OSC_PROGRESS_C1_ST
  end.

(** A terminator of kind [k] ends at [E], it starts at or after [after],
    and no terminator of any kind starting at or after [after] ends
    before [E]. *)
Definition earliest (text : jsstring) (after E : nat) (k : Terminator)
  : Prop :=
  (∃ j, after ≤ j ∧ occ (tstr k) text j ∧ E = j + length (tstr k))
  ∧ ∀ k' j', after ≤ j' → occ (tstr k') text j' →
             E ≤ j' + length (tstr k').

(** Some terminator, of whatever kind, occurs in [s]. *)
Definition has_terminator (s : jsstring) : bool :=
  includes s OSC_PROGRESS_ST || includes s OSC_PROGRESS_BEL
  || includes s OSC_PROGRESS_C1_ST.

(** Every prefix occurrence in [s] is followed, in [s], by a
    terminator. *)
Fixpoint all_terminated (s : jsstring) : bool :=
  match s with
  | [] => true
  | _ :: s' =>
      (if starts_with OSC_PROGRESS_PREFIX s
       then has_terminator (drop prefixLen s) else true)
      && all_terminated s'
  end.

(** A match lies within the span from [a] to [b]. *)
Definition within (a b : nat) (m : OscProgressSequence) : Prop :=
  a ≤ Seq.start m ∧ Seq.end_ m ≤ b.

#[global] Instance within_dec (a b : nat) (m : OscProgressSequence)
  : Decision (within a b m).
Proof. unfold within. apply _. Defined.

(** ** Labels and frames *)

(** [s] without the code unit [x]. *)
Definition remove_char (x : char) (s : jsstring) : jsstring :=
  filter (λ c, c ≠ x) s.

(** [s] is empty or starts with a code unit that [trim] keeps. *)
Definition head_kept (s : jsstring) : Prop :=
  match s with [] => True | c :: _ => is_white_space c = false end.

(** No unit that could end or restart an OSC sequence. *)
Definition clean (s : jsstring) : Prop :=
  (ESC ∉ s) ∧ (BEL ∉ s) ∧ (C1ST ∉ s) ∧ (RBRACKET ∉ s).

(** No unit that a terminator starts with. *)
Definition framing_free (s : jsstring) : Prop :=
  (ESC ∉ s) ∧ (BEL ∉ s) ∧ (C1ST ∉ s).

(** The part of a frame between the prefix and the terminator. *)
Definition frame_body (st : N) (percent : option number)
    (cleanLabel : jsstring) : jsstring :=
  N_toString st ++ str ";"
    ++ match percent with
       | None => []
       | Some clamped => Number_toString clamped
       end
    ++ str ";" ++ cleanLabel.

(** ** Frames interleaved with text *)

(** A frame [PREFIX body terminator], given by its body and the kind of
    its terminator, and the piece of surrounding text that follows it. *)
Definition Piece : Type := jsstring * Terminator * jsstring.

(** The text: a first piece [p0], then each frame and the text after
    it. *)
Fixpoint interleave (p0 : jsstring) (fs : list Piece) : jsstring :=
  match fs with
  | [] => p0
  | (body, k, p) :: fs' =>
      p0 ++ OSC_PROGRESS_PREFIX ++ body ++ tstr k ++ interleave p fs'
  end.

(** The same text with the frames left out. *)
Fixpoint surrounding (p0 : jsstring) (fs : list Piece) : jsstring :=
  match fs with
  | [] => p0
  | (_, _, p) :: fs' => p0 ++ surrounding p fs'
  end.

(** A frame is well terminated when nothing before its terminator is a
    terminator. *)
Definition well_terminated (f : Piece) : bool :=
  negb (has_terminator (fst (fst f))).

(** ** The capability decision *)

(** The built-in allow-list, the last thing the heuristic consults. *)
Definition allow_list `{Host} (env : gmap jsstring jsstring) : bool :=
  let termProgram := toLowerCase (default [] (env !! str "TERM_PROGRAM")) in
  includes termProgram (str "ghostty")
  || includes termProgram (str "wezterm")
  || truthy_string (env !! str "WT_SESSION").

(** A list of rules consulted in order: the first rule whose condition
    holds gives the verdict, and [otherwise] stands when none does. *)
Fixpoint first_rule (rules : list (bool * bool)) (otherwise : bool) : bool :=
  match rules with
  | [] => otherwise
  | (condition, verdict) :: rest =>
      if condition then verdict else first_rule rest otherwise
  end.

(** The same rules as propositions.  The answer is yes: the first rule
    whose condition holds says so, or no condition holds and [otherwise]
    does. *)
Fixpoint first_rule_holds (rules : list (Prop * bool)) (otherwise : Prop)
  : Prop :=
  match rules with
  | [] => otherwise
  | (condition, verdict) :: rest =>
      (condition ∧ verdict = true)
      ∨ (¬ condition ∧ first_rule_holds rest otherwise)
  end.

(** The options name a variable, the name is not empty, and [env] has
    that variable with the value ["1"]. *)
Definition set_to_1 (env : gmap jsstring jsstring)
    (name : option jsstring) : Prop :=
  ∃ n, name = Some n ∧ n ≠ [] ∧ env !! n = Some (str "1").

(** The terminal is on the built-in allow-list: the lower-cased
    [TERM_PROGRAM] (empty when unset) contains [ghostty] or [wezterm], or
    [WT_SESSION] is set to a non-empty value. *)
Definition on_allow_list `{Host} (env : gmap jsstring jsstring) : Prop :=
  let termProgram := toLowerCase (default [] (env !! str "TERM_PROGRAM")) in
  (∃ k, occ (str "ghostty") termProgram k)
  ∨ (∃ k, occ (str "wezterm") termProgram k)
  ∨ (∃ v, env !! str "WT_SESSION" = Some v ∧ v ≠ []).

(** ** Percents *)

(** The integer [z] and one half, as finite values. *)
Definition qz (z : Z) : Qc := Q2Qc (inject_Z z).
Definition half : Qc := Q2Qc (1 # 2).

(** A number that prints as a percent from 0 to [hi], or NaN. *)
Definition percent_upto (hi : Z) (x : number) : Prop :=
  x = NaN ∨ ∃ z, (0 ≤ z ≤ hi)%Z ∧ x = of_Z z.

(** NaN, positive infinity, or a finite value that is not negative. *)
Definition not_negative (x : number) : Prop :=
  match x with
  | NaN | Inf false => True
  | Inf true => False
  | Fin q => (0 ≤ q)%Qc
  end.

(** ** Emitter sessions *)

(** [e'] has the captured constants of [e]. *)
Definition same_session (e e' : Emitter) : Prop :=
  mode e' = mode e ∧ cleanLabel e' = cleanLabel e ∧ em_end e' = em_end e
  ∧ em_state e' = em_state e ∧ target e' = target e
  ∧ startedAt e' = startedAt e.

(** Every string written so far is a frame whose percent is at most 99. *)
Definition writes_capped (e : Emitter) : Prop :=
  ∀ w, w ∈ writes e →
       ∃ state percent,
         w = frame state (Some percent) (cleanLabel e) (em_end e)
         ∧ percent_upto 99 percent
         ∧ Number_toString percent ≠ str "100".

(** ** Trimmed labels *)

(** [s] neither starts nor ends with a code unit that [trim] removes. *)
Definition trimmed (s : jsstring) : Prop :=
  ∀ c, head s = Some c ∨ last s = Some c → is_white_space c = false.

(** ** Override variables *)

(** [options] with [disableEnvVar] not given, and with [forceEnvVar] not
    given. *)
Definition without_disableEnvVar (options : OscProgressSupportOptions)
  : OscProgressSupportOptions :=
  {| Support.force := Support.force options;
     Support.disabled := Support.disabled options;
     Support.disableEnvVar := None;
     Support.forceEnvVar := Support.forceEnvVar options |}.

Definition without_forceEnvVar (options : OscProgressSupportOptions)
  : OscProgressSupportOptions :=
  {| Support.force := Support.force options;
     Support.disabled := Support.disabled options;
     Support.disableEnvVar := Support.disableEnvVar options;
     Support.forceEnvVar := None |}.

(** The override variable [name] is not in force in [env]: no name is
    given, the name is empty, or the variable is not exactly ["1"]. *)
Definition not_in_force (env : gmap jsstring jsstring)
    (name : option jsstring) : Prop :=
  ∀ n, name = Some n → n = [] ∨ env !! n ≠ Some (str "1").

(** ** Scanner results *)

(** The matches of [l] lie one after the other from [from] on: each
    starts where the one before it ended, or later, and none is empty. *)
Fixpoint in_order (from : nat) (l : list OscProgressSequence) : Prop :=
  match l with
  | [] => True
  | m :: l' =>
      from ≤ Seq.start m ∧ Seq.start m < Seq.end_ m
      ∧ in_order (Seq.end_ m) l'
  end.

(** ** Sessions as event lists *)

#[global] Instance Event_eq_dec : EqDecision Event.
Proof. solve_decision. Defined.

(** How many times [stop()] is called. *)
Definition stops (evs : list Event) : nat :=
  length (filter (λ ev, ev = Stop) evs).

(** A whole frame: the prefix, a body in which no terminator occurs, and
    one terminator. *)
Definition is_frame (w : jsstring) : Prop :=
  ∃ body k,
    w = OSC_PROGRESS_PREFIX ++ body ++ tstr k ∧ has_terminator body = false.

(** Both are NaN, or both are integers and the first is not larger. *)
Definition percent_le (x y : number) : Prop :=
  (x = NaN ∧ y = NaN) ∨ ∃ a b, x = of_Z a ∧ y = of_Z b ∧ (a ≤ b)%Z.

(** The host's rounding of arithmetic results keeps their order, as
    rounding to the nearest double does. *)
Definition fround_monotone `{Host} : Prop :=
  ∀ a b : Qc, (a ≤ b)%Qc → (fround a ≤ fround b)%Qc.

(** ** Data of the examples *)

(** A host for closed examples: ASCII lower-casing, exact arithmetic, an
    empty [process.env] and no terminal on standard output. *)
Definition ascii_lower (c : char) : char :=
  if ((65 <=? c) && (c <=? 90))%N then (c + 32)%N else c.

#[local] Instance example_host : Host := {|
  toLowerCase := map ascii_lower;
  fround := id;
  fround_nonneg := λ q Hq, Hq;
  process_env := ∅;
  process_stdout_isTTY := false
|}.

Definition no_options : OscProgressSupportOptions :=
  {| Support.force := None; Support.disabled := None;
     Support.disableEnvVar := None; Support.forceEnvVar := None |}.

(** The emitter of the test "determinate advances but never reaches 100 by
    itself": [targetMs] 2000 on a Ghostty terminal. *)
Definition fetching : OscProgressOptions :=
  {| Opt.support := no_options;
     Opt.label := Some (str "Fetching");
     Opt.targetMs := Some (of_Z 2000);
     Opt.env := Some {[ str "TERM_PROGRAM" := str "ghostty" ]};
     Opt.isTty := Some true;
     Opt.indeterminate := None;
     Opt.state := None;
     Opt.terminator := None |}.

(** The emitter of the test "indeterminate emits start and clear". *)
Definition waiting : OscProgressOptions :=
  {| Opt.support := no_options;
     Opt.label := Some (str "Waiting");
     Opt.targetMs := None;
     Opt.env := Some {[ str "TERM_PROGRAM" := str "ghostty" ]};
     Opt.isTty := Some true;
     Opt.indeterminate := Some true;
     Opt.state := None;
     Opt.terminator := None |}.

(** A text with two frames. *)
Definition two_frames : jsstring :=
  OSC_PROGRESS_PREFIX ++ str "3;;A" ++ OSC_PROGRESS_ST ++ str "mid"
  ++ OSC_PROGRESS_PREFIX ++ str "1;5;B" ++ OSC_PROGRESS_BEL.

(** [fetching] with standard output not a terminal. *)
Definition piped : OscProgressOptions :=
  {| Opt.support := no_options;
     Opt.label := Some (str "Fetching");
     Opt.targetMs := Some (of_Z 2000);
     Opt.env := Some {[ str "TERM_PROGRAM" := str "ghostty" ]};
     Opt.isTty := Some false;
     Opt.indeterminate := None;
     Opt.state := None;
     Opt.terminator := None |}.

(** * Properties *)

(** ** Substring search *)

Section Search.

Implicit Types (pat text s : jsstring) (c : char).

Lemma starts_with_lookup pat s :
  starts_with pat s = true ↔ ∀ i c, pat !! i = Some c → s !! i = Some c.
Proof.
  revert s; induction pat as [|p pat IH]; intros s; simpl.
  - split; [intros _ i c H; by destruct i | done].
  - destruct s as [|d s].
    + split; [done | intros H; by specialize (H 0 p eq_refl)].
    + unfold eqb_char. rewrite andb_true_iff, N.eqb_eq, IH. split.
      * intros [-> H] [|i] c; simpl; [done | apply H].
      * intros H; split.
        -- specialize (H 0 p eq_refl). simpl in H. congruence.
        -- intros i c Hi. apply (H (S i) c Hi).
Qed.

Lemma starts_with_drop pat text k :
  starts_with pat (drop k text) = true ↔ occ pat text k.
Proof.
  rewrite starts_with_lookup. unfold occ.
  split; intros H i c Hi; specialize (H i c Hi);
    by rewrite lookup_drop in *.
Qed.

Lemma occ_bound pat text k :
  pat ≠ [] → occ pat text k → k + length pat ≤ length text.
Proof.
  intros Hne H. destruct (lookup_lt_is_Some_2 pat (length pat - 1)) as [c Hc].
  { destruct pat; [done | simpl; lia]. }
  apply H, lookup_lt_Some in Hc.
  destruct pat; [done | simpl in *; lia].
Qed.

Lemma indexOf_from_Some pat s i j :
  indexOf_from pat s i = Some j →
  ∃ k, j = i + k ∧ occ pat s k ∧ ∀ k', k' < k → ¬ occ pat s k'.
Proof.
  revert i; induction s as [|d s IH]; intros i; simpl.
  - destruct (starts_with pat []) eqn:E; [|done].
    intros [= <-]. exists 0. split; [lia|]. split; [|lia].
    by apply (starts_with_drop pat [] 0).
  - destruct (starts_with pat (d :: s)) eqn:E.
    + intros [= <-]. exists 0. split; [lia|]. split; [|lia].
      by apply (starts_with_drop pat (d :: s) 0).
    + intros (k & -> & Hk & Hmin)%IH. exists (S k).
      split; [lia|]. split.
      * intros i' c Hi. apply (Hk i' c Hi).
      * intros [|k'] Hlt Hocc.
        -- apply (starts_with_drop pat (d :: s) 0) in Hocc.
           simpl in Hocc. congruence.
        -- apply (Hmin k'); [lia|]. intros i' c Hi. apply (Hocc i' c Hi).
Qed.

Lemma indexOf_from_None pat s i :
  indexOf_from pat s i = None → ∀ k, ¬ occ pat s k.
Proof.
  revert i; induction s as [|d s IH]; intros i; simpl.
  - destruct (starts_with pat []) eqn:E; [done|]. intros _ k Hocc.
    assert (starts_with pat [] = true); [|congruence].
    apply starts_with_lookup. intros i' c Hi.
    specialize (Hocc i' c Hi). by rewrite lookup_nil in Hocc.
  - destruct (starts_with pat (d :: s)) eqn:E; [done|].
    intros H [|k] Hocc.
    + apply (starts_with_drop pat (d :: s) 0) in Hocc. simpl in Hocc.
      congruence.
    + apply (IH _ H k). intros i' c Hi. apply (Hocc i' c Hi).
Qed.

(** [indexOf] finds the first occurrence at or after [from]. *)
Lemma indexOf_Some text pat from j :
  from ≤ length text →
  indexOf text pat from = Some j →
  from ≤ j ∧ occ pat text j ∧ ∀ k, from ≤ k → k < j → ¬ occ pat text k.
Proof.
  unfold indexOf. intros Hle. rewrite Nat.min_l by done.
  intros (k & -> & Hk & Hmin)%indexOf_from_Some.
  split; [lia|]. split.
  - intros i c Hi. specialize (Hk i c Hi).
    rewrite lookup_drop in Hk. by rewrite <- Nat.add_assoc.
  - intros k' H1 H2 Hocc. apply (Hmin (k' - from)); [lia|].
    intros i c Hi. rewrite lookup_drop.
    replace (from + (k' - from + i)) with (k' + i) by lia. by apply Hocc.
Qed.

Lemma indexOf_None text pat from :
  from ≤ length text →
  indexOf text pat from = None → ∀ k, from ≤ k → ¬ occ pat text k.
Proof.
  unfold indexOf. intros Hle. rewrite Nat.min_l by done.
  intros H k Hk Hocc. apply (indexOf_from_None _ _ _ H (k - from)).
  intros i c Hi. rewrite lookup_drop.
  replace (from + (k - from + i)) with (k + i) by lia. by apply Hocc.
Qed.

(** The converse: the first occurrence is what [indexOf] returns. *)
Lemma indexOf_first text pat from j :
  from ≤ length text → from ≤ j → occ pat text j →
  (∀ k, from ≤ k → k < j → ¬ occ pat text k) →
  indexOf text pat from = Some j.
Proof.
  intros Hle Hj Hocc Hmin.
  destruct (indexOf text pat from) as [j'|] eqn:E.
  - apply indexOf_Some in E as (H1 & H2 & H3); [|done].
    destruct (Nat.lt_trichotomy j j') as [Hlt|[->|Hlt]]; [|done|].
    + by destruct (H3 j Hj Hlt).
    + by destruct (Hmin j' H1 Hlt).
  - by destruct (indexOf_None _ _ _ Hle E j Hj).
Qed.

Lemma indexOf_none text pat from :
  from ≤ length text → (∀ k, from ≤ k → ¬ occ pat text k) →
  indexOf text pat from = None.
Proof.
  intros Hle Hno. destruct (indexOf text pat from) as [j|] eqn:E; [|done].
  apply indexOf_Some in E as (H1 & H2 & _); [|done].
  by destruct (Hno j H1).
Qed.

Lemma includes_false text pat :
  includes text pat = false ↔ ∀ k, ¬ occ pat text k.
Proof.
  unfold includes. split.
  - destruct (indexOf text pat 0) eqn:E; [done|]. intros _ k.
    apply (indexOf_None text pat 0); [lia | done | lia].
  - intros H. rewrite indexOf_none; [done | lia | auto].
Qed.

Lemma includes_true text pat :
  includes text pat = true ↔ ∃ k, occ pat text k.
Proof.
  unfold includes. split.
  - destruct (indexOf text pat 0) as [j|] eqn:E; [|done]. intros _.
    apply indexOf_Some in E as (_ & H & _); [eauto | lia].
  - intros [k Hk]. destruct (indexOf text pat 0) eqn:E; [done|].
    destruct (indexOf_None text pat 0 ltac:(lia) E k ltac:(lia) Hk).
Qed.

(** Occurrences in a concatenation. *)
Lemma occ_app_l pat a b k :
  k + length pat ≤ length a → occ pat (a ++ b) k ↔ occ pat a k.
Proof.
  intros Hle; split; intros H i c Hi; specialize (H i c Hi);
    apply lookup_lt_Some in Hi as Hlt.
  - by rewrite lookup_app_l in H by lia.
  - by rewrite lookup_app_l by lia.
Qed.

Lemma occ_app_r pat a b k :
  occ pat (a ++ b) (length a + k) ↔ occ pat b k.
Proof.
  split; intros H i c Hi; specialize (H i c Hi).
  - rewrite lookup_app_r in H by lia.
    by replace (length a + k + i - length a) with (k + i) in H by lia.
  - rewrite lookup_app_r by lia.
    by replace (length a + k + i - length a) with (k + i) by lia.
Qed.

(** An occurrence that crosses from [a] into [c :: b] has [c] beyond its
    first code unit. *)
Lemma occ_straddle pat a c b k :
  occ pat (a ++ c :: b) k → k < length a → length a < k + length pat →
  ∃ i, 0 < i ∧ pat !! i = Some c.
Proof.
  intros H Hlt Hgt. exists (length a - k). split; [lia|].
  destruct (lookup_lt_is_Some_2 pat (length a - k)) as [d Hd]; [lia|].
  specialize (H _ _ Hd).
  replace (k + (length a - k)) with (length a) in H by lia.
  rewrite list_lookup_middle in H by done. congruence.
Qed.

End Search.

(** ** Label sanitizer *)

Section Sanitizer.

Implicit Types (s label : jsstring) (c x : char).

Lemma remove_char_elem x s c : c ∈ remove_char x s ↔ c ≠ x ∧ c ∈ s.
Proof. unfold remove_char. by rewrite list_elem_of_filter. Qed.

Lemma remove_char_id x s : x ∉ s → remove_char x s = s.
Proof.
  unfold remove_char. induction s as [|c s IH]; [done|].
  rewrite not_elem_of_cons. intros [Hne Hs].
  rewrite filter_cons_True by done. by rewrite IH.
Qed.

Lemma starts_with_single x c s :
  starts_with [x] (c :: s) = bool_decide (c = x).
Proof.
  simpl. unfold eqb_char. rewrite andb_true_r.
  destruct (N.eqb_spec x c); case_bool_decide; congruence.
Qed.

(** Replacing a one-unit pattern by nothing filters that unit out. *)
Lemma replaceAll_single s x : replaceAll s [x] [] = remove_char x s.
Proof.
  unfold replaceAll, remove_char. induction s as [|c s IH]; [done|].
  cbn [replaceAll_skip]. rewrite starts_with_single.
  case_bool_decide as Hc; simpl length; simpl Nat.sub.
  - rewrite filter_cons_False by (intros ?; done). exact IH.
  - rewrite filter_cons_True by done. by rewrite IH.
Qed.

Lemma split_skip_cons sep k cur s :
  ∃ p ps, split_skip sep k cur s = p :: ps.
Proof.
  revert k cur; induction s as [|c s IH]; intros k cur; simpl; [eauto|].
  destruct k; [|apply IH]. destruct (starts_with sep (c :: s)); eauto.
Qed.

(** [split] on one unit and [join] with nothing filter that unit out. *)
Lemma join_split_skip_single x cur s :
  join (split_skip [x] 0 cur s) [] = cur ++ remove_char x s.
Proof.
  unfold remove_char. revert cur; induction s as [|c s IH]; intros cur.
  - simpl. by rewrite app_nil_r.
  - cbn [split_skip]. rewrite starts_with_single.
    case_bool_decide as Hc; simpl length; simpl Nat.sub.
    + rewrite filter_cons_False by (intros ?; done).
      destruct (split_skip_cons [x] 0 [] s) as (p & ps & E).
      rewrite E. change (join (cur :: p :: ps) [])
        with (cur ++ [] ++ join (p :: ps) []).
      by rewrite <- E, IH.
    + rewrite filter_cons_True by done. rewrite IH.
      by rewrite <- app_assoc.
Qed.

Lemma join_split_single s x : join (split s [x]) [] = remove_char x s.
Proof. unfold split. by rewrite join_split_skip_single. Qed.

(** A pattern whose first unit is absent from [s] is never found. *)
Lemma replaceAll_absent s x pat repl :
  x ∉ s → replaceAll s (x :: pat) repl = s.
Proof.
  unfold replaceAll. induction s as [|c s IH]; [done|].
  rewrite not_elem_of_cons. intros [Hne Hs]. cbn [replaceAll_skip].
  assert (starts_with (x :: pat) (c :: s) = false) as ->.
  { simpl. unfold eqb_char. destruct (N.eqb_spec x c); [congruence|done]. }
  by rewrite IH.
Qed.

(** [trim] keeps a contiguous part, and trimming twice changes nothing. *)
Lemma trimStart_elem s c : c ∈ trimStart s → c ∈ s.
Proof.
  induction s as [|d s IH]; simpl; [done|].
  destruct (is_white_space d); [|done]. intros H%IH. by right.
Qed.

Lemma trimEnd_elem s c : c ∈ trimEnd s → c ∈ s.
Proof.
  induction s as [|d s IH]; simpl; [done|].
  destruct (trimEnd s) as [|e r] eqn:E.
  - destruct (is_white_space d); [by intros ?%elem_of_nil|].
    intros ->%list_elem_of_singleton. left.
  - intros [->|H]%elem_of_cons; [left | right; by apply IH].
Qed.

Lemma trim_elem s c : c ∈ trim s → c ∈ s.
Proof. intros H%trimEnd_elem. by apply trimStart_elem. Qed.

Lemma trimStart_head s : head_kept (trimStart s).
Proof.
  induction s as [|c s IH]; simpl; [done|].
  by destruct (is_white_space c) eqn:E.
Qed.

Lemma trimStart_id s : head_kept s → trimStart s = s.
Proof. destruct s as [|c s]; simpl; [done|]. by intros ->. Qed.

Lemma trimEnd_head s : head_kept s → head_kept (trimEnd s).
Proof.
  destruct s as [|c s]; simpl; [done|]. intros Hc.
  destruct (trimEnd s); [by rewrite Hc | done].
Qed.

Lemma trimEnd_idem s : trimEnd (trimEnd s) = trimEnd s.
Proof.
  induction s as [|c s IH]; simpl; [done|].
  destruct (trimEnd s) as [|e r] eqn:E.
  - destruct (is_white_space c) eqn:Hc; simpl; [done | by rewrite Hc].
  - change (trimEnd (c :: e :: r)) with
      (match trimEnd (e :: r) with
       | [] => if is_white_space c then [] else [c]
       | r' => c :: r'
       end).
    by rewrite IH.
Qed.

Lemma trim_idem s : trim (trim s) = trim s.
Proof.
  unfold trim.
  rewrite (trimStart_id (trimEnd (trimStart s)))
    by apply trimEnd_head, trimStart_head.
  apply trimEnd_idem.
Qed.

(** The sanitizer as a chain of filters. *)
Lemma sanitizeLabel_filters label :
  sanitizeLabel label =
  trim (remove_char RBRACKET (remove_char C1ST (remove_char BEL
    (remove_char ESC (replaceAll label OSC_PROGRESS_ST []))))).
Proof.
  unfold sanitizeLabel, OSC_PROGRESS_BEL, OSC_PROGRESS_C1_ST.
  by rewrite join_split_single, !replaceAll_single.
Qed.

Lemma sanitizeLabel_clean label : clean (sanitizeLabel label).
Proof.
  rewrite sanitizeLabel_filters.
  repeat split; intros H%trim_elem;
    repeat (apply remove_char_elem in H as [? H]); done.
Qed.

Lemma sanitizeLabel_fixed s :
  clean s → trim s = s → sanitizeLabel s = s.
Proof.
  intros (H1 & H2 & H3 & H4) Htrim. rewrite sanitizeLabel_filters.
  unfold OSC_PROGRESS_ST. rewrite replaceAll_absent by done.
  rewrite (remove_char_id ESC) by done.
  rewrite (remove_char_id BEL) by done.
  rewrite (remove_char_id C1ST) by done.
  by rewrite (remove_char_id RBRACKET).
Qed.

Lemma clean_no_ST s : ESC ∉ s → includes s OSC_PROGRESS_ST = false.
Proof.
  intros H. apply includes_false. intros k Hocc. apply H.
  specialize (Hocc 0 ESC eq_refl). by apply list_elem_of_lookup_2 in Hocc.
Qed.

(** C7.  For every label [L], [sanitizeLabel L] contains no ST sequence,
    no ESC, no BEL, no C1 ST and no [']'], and sanitizing it again leaves
    it unchanged. *)
Theorem sanitizeLabel_safe_and_idempotent (L : jsstring) :
  includes (sanitizeLabel L) OSC_PROGRESS_ST = false
  ∧ (ESC ∉ sanitizeLabel L)
  ∧ (BEL ∉ sanitizeLabel L)
  ∧ (C1ST ∉ sanitizeLabel L)
  ∧ (RBRACKET ∉ sanitizeLabel L)
  ∧ sanitizeLabel (sanitizeLabel L) = sanitizeLabel L.
Proof.
  pose proof (sanitizeLabel_clean L) as Hc.
  destruct Hc as (H1 & H2 & H3 & H4) eqn:E; clear E.
  split; [by apply clean_no_ST|]. repeat (split; [done|]).
  apply sanitizeLabel_fixed; [done|].
  rewrite sanitizeLabel_filters. apply trim_idem.
Qed.

End Sanitizer.

(** ** Label sanitizer: what is kept *)

Section Labels.

Implicit Types (s label pat : jsstring) (c x : char).

Lemma replaceAll_skip_sublist pat k s :
  replaceAll_skip pat [] k s `sublist_of` s.
Proof.
  revert k; induction s as [|c s IH]; intros k; [done|].
  cbn [replaceAll_skip]. destruct k as [|k]; [|by apply sublist_cons].
  destruct (starts_with pat (c :: s)).
  - rewrite app_nil_l. apply sublist_cons, IH.
  - apply sublist_skip, IH.
Qed.

Lemma trimStart_sublist s : trimStart s `sublist_of` s.
Proof.
  induction s as [|c s IH]; simpl; [done|].
  destruct (is_white_space c); [by apply sublist_cons | done].
Qed.

Lemma trimEnd_sublist s : trimEnd s `sublist_of` s.
Proof.
  induction s as [|c s IH]; simpl; [done|].
  destruct (trimEnd s) as [|e r].
  - destruct (is_white_space c); [apply sublist_nil_l|].
    apply sublist_skip, sublist_nil_l.
  - by apply sublist_skip.
Qed.

Lemma trimEnd_last s c :
  last (trimEnd s) = Some c → is_white_space c = false.
Proof.
  induction s as [|d s IH]; simpl; [done|].
  destruct (trimEnd s) as [|e r] eqn:E.
  - destruct (is_white_space d) eqn:Hd; [done|]. by intros [= <-].
  - rewrite last_cons_cons. exact IH.
Qed.

Lemma trimEnd_id s :
  (∀ c, last s = Some c → is_white_space c = false) → trimEnd s = s.
Proof.
  induction s as [|d s IH]; [done|]. intros Hlast.
  cbn [trimEnd]. destruct s as [|e r].
  - simpl. by rewrite (Hlast d).
  - rewrite IH; [done|]. intros c Hc. apply Hlast.
    by rewrite last_cons_cons.
Qed.

Lemma trim_trimmed s : trimmed (trim s).
Proof.
  intros c [Hc|Hc].
  - pose proof (trimEnd_head _ (trimStart_head s)) as Hh.
    fold (trim s) in Hh. destruct (trim s); [done|].
    simpl in Hc, Hh. congruence.
  - by apply trimEnd_last in Hc.
Qed.

Lemma trimmed_trim s : trimmed s → trim s = s.
Proof.
  intros Ht. unfold trim. rewrite trimStart_id.
  - apply trimEnd_id. intros c Hc. apply Ht. by right.
  - destruct s as [|c s]; simpl; [done|]. apply Ht. by left.
Qed.

(** X7.  [sanitizeLabel] only deletes code units, keeping the others in
    their order, and what it returns neither starts nor ends with white
    space. *)
Theorem sanitizeLabel_only_deletes label :
  sanitizeLabel label `sublist_of` label ∧ trimmed (sanitizeLabel label).
Proof.
  rewrite sanitizeLabel_filters. split; [|apply trim_trimmed].
  unfold trim.
  etrans; [apply trimEnd_sublist|]. etrans; [apply trimStart_sublist|].
  unfold remove_char.
  do 4 (etrans; [apply sublist_filter|]).
  apply replaceAll_skip_sublist.
Qed.

(** X8.  The labels that [sanitizeLabel] returns unchanged are exactly
    those without ESC, BEL, C1 ST and [']'] that neither start nor end
    with white space. *)
Theorem sanitizeLabel_fixed_points label :
  sanitizeLabel label = label ↔ clean label ∧ trimmed label.
Proof.
  split.
  - intros <-. split; [apply sanitizeLabel_clean|].
    rewrite sanitizeLabel_filters. apply trim_trimmed.
  - intros [Hc Ht]. apply sanitizeLabel_fixed; [done|].
    by apply trimmed_trim.
Qed.

End Labels.

(** ** Capability heuristic *)

Section Capability.

Context `{Host}.
Implicit Types (env : gmap jsstring jsstring)
  (options : OscProgressSupportOptions).

Lemma supportsOscProgress_rules env options :
  supportsOscProgress env true options =
  first_rule
    [ (truthy_bool (Support.disabled options), false);
      (truthy_bool (Support.force options), true);
      (env_var_is_1 env (Support.disableEnvVar options), false);
      (env_var_is_1 env (Support.forceEnvVar options), true) ]
    (allow_list env).
Proof.
  unfold supportsOscProgress, allow_list; simpl.
  repeat match goal with |- context [if ?b then _ else _] =>
    destruct b; try reflexivity end.
Qed.

Lemma truthy_bool_true (b : option bool) :
  truthy_bool b = true ↔ b = Some true.
Proof. destruct b as [[|]|]; simpl; split; congruence. Qed.

Lemma env_var_is_1_true env (name : option jsstring) :
  env_var_is_1 env name = true ↔ set_to_1 env name.
Proof.
  unfold set_to_1. destruct name as [n|]; simpl.
  - rewrite andb_true_iff, bool_decide_eq_true. split.
    + intros [Hn Hv]. exists n. by destruct n.
    + intros (n' & [= <-] & Hn & Hv). by destruct n.
  - split; [done|]. by intros (n & ? & _).
Qed.

Lemma allow_list_true env : allow_list env = true ↔ on_allow_list env.
Proof.
  unfold allow_list, on_allow_list. cbv zeta.
  rewrite !orb_true_iff, !includes_true.
  assert (truthy_string (env !! str "WT_SESSION") = true
          ↔ ∃ v, env !! str "WT_SESSION" = Some v ∧ v ≠ []) as ->; [|tauto].
  destruct (env !! str "WT_SESSION") as [[|c v]|]; simpl.
  - split; [done|]. by intros (v & [= <-] & ?).
  - split; [|done]. intros _. by exists (c :: v).
  - split; [done|]. by intros (v & ? & _).
Qed.

Lemma first_rule_cons (b : bool) (P : Prop) (verdict : bool) rest prest
    (o : bool) (O : Prop) :
  (b = true ↔ P) →
  (first_rule rest o = true ↔ first_rule_holds prest O) →
  first_rule ((b, verdict) :: rest) o = true
  ↔ first_rule_holds ((P, verdict) :: prest) O.
Proof.
  intros [H1 H2] Hrest. cbn [first_rule first_rule_holds].
  destruct b.
  - pose proof (H1 eq_refl). tauto.
  - assert (¬ P) by (intros HP; by apply H2 in HP). tauto.
Qed.

(** C9.  Without a TTY the answer is [false] whatever the environment
    and the options, [force] included.  With a TTY the overrides are
    consulted in the order [disabled], [force], the variable named by
    [disableEnvVar] being ["1"], the variable named by [forceEnvVar] being
    ["1"], and then the built-in allow-list; in particular [disabled]
    wins over [force]. *)
Theorem supportsOscProgress_precedence env options :
  supportsOscProgress env false options = false
  ∧ (supportsOscProgress env true options = true ↔
     first_rule_holds
       [ (Support.disabled options = Some true, false);
         (Support.force options = Some true, true);
         (set_to_1 env (Support.disableEnvVar options), false);
         (set_to_1 env (Support.forceEnvVar options), true) ]
       (on_allow_list env))
  ∧ supportsOscProgress env true
      {| Support.force := Some true; Support.disabled := Some true;
         Support.disableEnvVar := Support.disableEnvVar options;
         Support.forceEnvVar := Support.forceEnvVar options |} = false.
Proof.
  split; [reflexivity|]. split; [|reflexivity].
  rewrite supportsOscProgress_rules.
  repeat apply first_rule_cons;
    auto using truthy_bool_true, env_var_is_1_true.
  apply allow_list_true.
Qed.

(** C2, as the code has it.  With a TTY, no [disabled] or [force] option,
    no override variable set to ["1"] and a [TERM_PROGRAM] naming neither
    ghostty nor wezterm, a [WT_SESSION] variable with a non-empty value
    gives [true]. *)
Theorem supportsOscProgress_WT_SESSION env options (v : jsstring) :
  env !! str "WT_SESSION" = Some v →
  v ≠ [] →
  truthy_bool (Support.disabled options) = false →
  truthy_bool (Support.force options) = false →
  env_var_is_1 env (Support.disableEnvVar options) = false →
  env_var_is_1 env (Support.forceEnvVar options) = false →
  includes (toLowerCase (default [] (env !! str "TERM_PROGRAM")))
           (str "ghostty") = false →
  includes (toLowerCase (default [] (env !! str "TERM_PROGRAM")))
           (str "wezterm") = false →
  supportsOscProgress env true options = true.
Proof.
  intros Hv Hne Hd Hf Hde Hfe Hg Hw.
  rewrite supportsOscProgress_rules. cbn [first_rule].
  rewrite Hd, Hf, Hde, Hfe. unfold allow_list. cbv zeta.
  rewrite Hg, Hw, Hv. by destruct v.
Qed.

End Capability.

Lemma supportsOscProgress_WT_SESSION_witness :
  supportsOscProgress {[ str "WT_SESSION" := str "1" ]} true no_options = true.
Proof.
  apply (supportsOscProgress_WT_SESSION _ _ (str "1")); by vm_compute.
Defined.

(** C2 as stated fails: a [WT_SESSION] that is present but empty is falsy
    for [if (env.WT_SESSION)], and the answer is [false]. *)
Lemma supportsOscProgress_WT_SESSION_empty :
  let env : gmap jsstring jsstring := {[ str "WT_SESSION" := [] ]} in
  is_Some (env !! str "WT_SESSION")
  ∧ truthy_bool (Support.disabled no_options) = false
  ∧ truthy_bool (Support.force no_options) = false
  ∧ env_var_is_1 env (Support.disableEnvVar no_options) = false
  ∧ env_var_is_1 env (Support.forceEnvVar no_options) = false
  ∧ includes (toLowerCase (default [] (env !! str "TERM_PROGRAM")))
             (str "ghostty") = false
  ∧ includes (toLowerCase (default [] (env !! str "TERM_PROGRAM")))
             (str "wezterm") = false
  ∧ supportsOscProgress env true no_options = false.
Proof.
  cbv zeta. split; [by eexists|]. repeat split; by vm_compute.
Qed.

(** The cases of the test suite. *)
Example supports_requires_tty :
  supportsOscProgress {[ str "TERM_PROGRAM" := str "ghostty" ]} false
    no_options = false.
Proof. reflexivity. Qed.

Example supports_known_terminals :
  supportsOscProgress {[ str "TERM_PROGRAM" := str "ghostty" ]} true
    no_options = true
  ∧ supportsOscProgress {[ str "TERM_PROGRAM" := str "WezTerm" ]} true
      no_options = true
  ∧ supportsOscProgress {[ str "WT_SESSION" := str "1" ]} true
      no_options = true
  ∧ supportsOscProgress {[ str "TERM_PROGRAM" := str "unknown" ]} true
      no_options = false.
Proof. repeat split; by vm_compute. Qed.

(** ** Capability heuristic: what it reads *)

Section Reads.

Context `{Host}.
Implicit Types (env : gmap jsstring jsstring)
  (options : OscProgressSupportOptions).

Lemma env_var_not_in_force env name :
  not_in_force env name → env_var_is_1 env name = false.
Proof.
  intros Hn. destruct name as [n|]; [|done]. simpl.
  destruct (Hn n eq_refl) as [->|Hne]; [done|].
  rewrite bool_decide_eq_false_2 by done. apply andb_false_r.
Qed.

(** X16.  An override variable counts only when it is named, the name is
    not empty, and its value is exactly ["1"]: otherwise
    [supportsOscProgress] decides as if the option naming it were not
    given.  This holds of each of the two variables by itself, whatever
    the other is. *)
Theorem override_needs_exactly_1 env (isTty : bool) options :
  (not_in_force env (Support.disableEnvVar options) →
   supportsOscProgress env isTty options
   = supportsOscProgress env isTty (without_disableEnvVar options))
  ∧ (not_in_force env (Support.forceEnvVar options) →
     supportsOscProgress env isTty options
     = supportsOscProgress env isTty (without_forceEnvVar options)).
Proof.
  split; intros Hn; unfold supportsOscProgress;
    cbn [without_disableEnvVar without_forceEnvVar Support.force
         Support.disabled Support.disableEnvVar Support.forceEnvVar];
    by rewrite (env_var_not_in_force _ _ Hn).
Qed.

Lemma env_var_is_1_agree env1 env2 name :
  (∀ n, name = Some n → env1 !! n = env2 !! n) →
  env_var_is_1 env1 name = env_var_is_1 env2 name.
Proof.
  intros Hn. destruct name as [n|]; [|done]. simpl.
  by rewrite (Hn n eq_refl).
Qed.

(** X17.  [supportsOscProgress] reads the environment only at
    [TERM_PROGRAM], at [WT_SESSION] and at the two variables the options
    name: two environments that agree there get the same answer. *)
Theorem supports_reads_four_variables env1 env2 (isTty : bool) options :
  env1 !! str "TERM_PROGRAM" = env2 !! str "TERM_PROGRAM" →
  env1 !! str "WT_SESSION" = env2 !! str "WT_SESSION" →
  (∀ n, Support.disableEnvVar options = Some n → env1 !! n = env2 !! n) →
  (∀ n, Support.forceEnvVar options = Some n → env1 !! n = env2 !! n) →
  supportsOscProgress env1 isTty options
  = supportsOscProgress env2 isTty options.
Proof.
  intros Ht Hw Hd Hf. unfold supportsOscProgress.
  rewrite (env_var_is_1_agree env1 env2 _ Hd).
  rewrite (env_var_is_1_agree env1 env2 _ Hf).
  by rewrite Ht, Hw.
Qed.

End Reads.

Lemma override_needs_exactly_1_witness :
  let options :=
    {| Support.force := None; Support.disabled := None;
       Support.disableEnvVar := Some (str "NO_OSC");
       Support.forceEnvVar := Some (str "FORCE_OSC") |} in
  let env : gmap jsstring jsstring :=
    {[ str "NO_OSC" := str "0"; str "FORCE_OSC" := str "1" ]} in
  supportsOscProgress env true options = true
  ∧ supportsOscProgress env true options
    = supportsOscProgress env true (without_disableEnvVar options).
Proof.
  cbv zeta. split; [reflexivity|].
  apply (proj1 (override_needs_exactly_1 _ true _)).
  intros n [= <-]. right. by vm_compute.
Defined.

Lemma supports_reads_four_variables_witness :
  let env1 : gmap jsstring jsstring :=
    {[ str "TERM_PROGRAM" := str "ghostty" ]} in
  let env2 : gmap jsstring jsstring :=
    {[ str "TERM_PROGRAM" := str "ghostty"; str "TERM" := str "dumb" ]} in
  supportsOscProgress env1 true no_options
  = supportsOscProgress env2 true no_options.
Proof.
  cbv zeta. apply supports_reads_four_variables;
    [reflexivity | reflexivity | intros n [=] | intros n [=]].
Defined.

(** ** The nearest terminator *)

Section Nearest.

Implicit Types (text : jsstring) (k : Terminator) (c : Candidate).

Lemma tstr_nonempty k : tstr k ≠ [].
Proof. by destruct k. Qed.

Lemma candidates_elem text after c :
  c ∈ candidates text after ↔
  ∃ j, indexOf text (tstr (cand_terminator c)) after = Some j
       ∧ endExclusive c = j + length (tstr (cand_terminator c)).
Proof.
  unfold candidates. rewrite !elem_of_app. split.
  - intros [H|[H|H]];
      match type of H with
      | _ ∈ match ?o with _ => _ end =>
          destruct o as [j|] eqn:E; [|by apply elem_of_nil in H]
      end;
      apply list_elem_of_singleton in H; subst c; simpl; eauto.
  - destruct c as [e [| |]]; simpl; intros (j & -> & ->);
      [left | right; left | right; right]; apply list_elem_of_singleton;
      done.
Qed.

Lemma candidate_of_occ text after k j :
  after ≤ length text → after ≤ j → occ (tstr k) text j →
  ∃ c, c ∈ candidates text after ∧ cand_terminator c = k
       ∧ endExclusive c ≤ j + length (tstr k).
Proof.
  intros Hle Hj Hocc.
  destruct (indexOf text (tstr k) after) as [j0|] eqn:E.
  - exists {| endExclusive := j0 + length (tstr k); cand_terminator := k |}.
    split; [apply candidates_elem; simpl; eauto|]. split; [done|]. simpl.
    apply indexOf_Some in E as (_ & _ & Hmin); [|done].
    destruct (decide (j0 ≤ j)); [lia|].
    destruct (Hmin j Hj ltac:(lia) Hocc).
  - destruct (indexOf_None _ _ _ Hle E j Hj Hocc).
Qed.

Lemma sort_head_min l b r :
  sort_candidates l = b :: r →
  ∀ c, c ∈ l → endExclusive b ≤ endExclusive c.
Proof.
  revert b r; induction l as [|d l IH]; intros b r; simpl; [done|].
  destruct (sort_candidates l) as [|b' r'] eqn:E.
  - assert (l = []) as ->.
    { destruct l as [|x l]; [done|].
      assert (x ∈ sort_candidates (x :: l)) as Hx
        by (apply sort_candidates_elem; left).
      rewrite E in Hx. by apply elem_of_nil in Hx. }
    simpl. intros [= <- <-] c ->%list_elem_of_singleton. done.
  - specialize (IH _ _ eq_refl). simpl.
    destruct (Nat.leb_spec (endExclusive d) (endExclusive b')).
    + intros [= <- <-] c [->|Hc]%elem_of_cons; [done|].
      specialize (IH c Hc). lia.
    + intros [= <- <-] c [->|Hc]%elem_of_cons; [lia | by apply IH].
Qed.

(** The head of the sorted candidates is the nearest terminator. *)
Lemma sorted_head_earliest text after best rest :
  after ≤ length text →
  sort_candidates (candidates text after) = best :: rest →
  earliest text after (endExclusive best) (cand_terminator best).
Proof.
  intros Hle Hs.
  assert (best ∈ candidates text after) as Hb.
  { apply sort_candidates_elem. rewrite Hs. left. }
  split.
  - apply candidates_elem in Hb as (j & Hj & ->).
    apply indexOf_Some in Hj as (H1 & H2 & _); [eauto|done].
  - intros k' j' Hj' Hocc.
    destruct (candidate_of_occ text after k' j' Hle Hj' Hocc)
      as (c & Hc & _ & Hce).
    pose proof (sort_head_min _ _ _ Hs c Hc). lia.
Qed.

Lemma sorted_nil_no_terminator text after :
  after ≤ length text →
  sort_candidates (candidates text after) = [] →
  ∀ k j, after ≤ j → ¬ occ (tstr k) text j.
Proof.
  intros Hle Hs k j Hj Hocc.
  destruct (candidate_of_occ text after k j Hle Hj Hocc) as (c & Hc & _).
  apply sort_candidates_elem in Hc. rewrite Hs in Hc.
  by apply elem_of_nil in Hc.
Qed.

Lemma earliest_unique text after E1 k1 E2 k2 :
  earliest text after E1 k1 → earliest text after E2 k2 → E1 = E2.
Proof.
  intros [(j1 & H1 & O1 & ->) M1] [(j2 & H2 & O2 & ->) M2].
  specialize (M1 _ _ H2 O2). specialize (M2 _ _ H1 O1). lia.
Qed.

Lemma earliest_sorted text after E k :
  after ≤ length text → earliest text after E k →
  ∃ best rest, sort_candidates (candidates text after) = best :: rest
               ∧ endExclusive best = E.
Proof.
  intros Hle He.
  destruct (sort_candidates (candidates text after)) as [|best rest] eqn:Hs.
  - destruct He as [(j & Hj & Hocc & _) _].
    destruct (sorted_nil_no_terminator _ _ Hle Hs k j Hj Hocc).
  - exists best, rest. split; [done|].
    eapply earliest_unique; [|exact He].
    by eapply sorted_head_earliest.
Qed.

(** [stripOscProgress] collects the same ends and takes their minimum. *)
Lemma strip_ends_candidates text after :
  strip_ends text after = endExclusive <$> candidates text after.
Proof.
  unfold strip_ends, candidates. rewrite !fmap_app.
  by repeat match goal with |- context [indexOf ?t ?p ?a] =>
    destruct (indexOf t p a) end.
Qed.

Lemma min_of_le e es x : x ∈ e :: es → min_of e es ≤ x.
Proof.
  induction es as [|y es IH]; simpl.
  - by intros ->%list_elem_of_singleton.
  - intros [->|[->|Hx]%elem_of_cons]%elem_of_cons.
    + etrans; [apply Nat.le_min_r|]. apply IH. left.
    + apply Nat.le_min_l.
    + etrans; [apply Nat.le_min_r|]. apply IH. by right.
Qed.

Lemma cutEnd_earliest text start E k :
  start + prefixLen ≤ length text →
  earliest text (start + prefixLen) E k → cutEnd text start = E.
Proof.
  intros Hle He. unfold cutEnd. cbv zeta. rewrite strip_ends_candidates.
  destruct He as [(j & Hj & Hocc & ->) Hmin].
  destruct (candidate_of_occ _ _ _ _ Hle Hj Hocc) as (c & Hc & Hk & Hce).
  destruct (endExclusive <$> candidates text (start + prefixLen))
    as [|e es] eqn:E.
  { apply (list_elem_of_fmap_2 endExclusive) in Hc. rewrite E in Hc.
    by apply elem_of_nil in Hc. }
  apply Nat.le_antisymm.
  - etrans; [|exact Hce]. apply min_of_le. rewrite <- E.
    by apply list_elem_of_fmap_2.
  - pose proof (min_of_elem e es) as Hin. rewrite <- E in Hin.
    apply list_elem_of_fmap in Hin as (c' & -> & Hc').
    apply candidates_elem in Hc' as (j' & Hj' & ->).
    apply indexOf_Some in Hj' as (H1 & H2 & _); [|done]. by apply Hmin.
Qed.

Lemma cutEnd_unterminated text start :
  start + prefixLen ≤ length text →
  (∀ k j, start + prefixLen ≤ j → ¬ occ (tstr k) text j) →
  cutEnd text start = length text.
Proof.
  intros Hle Hno. unfold cutEnd. cbv zeta. rewrite strip_ends_candidates.
  destruct (candidates text (start + prefixLen)) as [|c cs] eqn:E; [done|].
  assert (c ∈ candidates text (start + prefixLen)) as Hc
    by (rewrite E; left).
  apply candidates_elem in Hc as (j & Hj & _).
  apply indexOf_Some in Hj as (H1 & H2 & _); [|done].
  destruct (Hno _ _ H1 H2).
Qed.

End Nearest.

(** ** Sequence scanner *)

Section Scanner.

Implicit Types (text : jsstring) (m : OscProgressSequence).

(** One round of the loop of [findOscProgressSequences]. *)
Lemma find_loop_round text searchFrom :
  find_loop text searchFrom =
  if decide (searchFrom < length text) then
    match indexOf text OSC_PROGRESS_PREFIX searchFrom with
    | None => []
    | Some start =>
        match sort_candidates (candidates text (start + prefixLen)) with
        | [] => find_loop text (start + prefixLen)
        | best :: _ =>
            {| Seq.start := start;
               Seq.end_ := endExclusive best;
               Seq.raw := slice text start (endExclusive best);
               Seq.terminator := cand_terminator best |}
            :: find_loop text (endExclusive best)
        end
    end
  else [].
Proof.
  funelim (find_loop text searchFrom);
    repeat match goal with
           | H : inspect _ = _ |- _ => clear H
           | H : @eq (option nat) _ _ |- _ => rewrite H
           | H : @eq (list Candidate) _ _ |- _ => rewrite H
           | H : decide _ = _ |- _ => rewrite H
           end; try reflexivity.
Qed.

(** A property of the matches that each round establishes holds of every
    match returned. *)
Lemma find_loop_ind (P : jsstring → nat → OscProgressSequence → Prop) :
  (∀ text searchFrom start best rest,
      searchFrom < length text →
      indexOf text OSC_PROGRESS_PREFIX searchFrom = Some start →
      sort_candidates (candidates text (start + prefixLen)) = best :: rest →
      P text searchFrom
        {| Seq.start := start;
           Seq.end_ := endExclusive best;
           Seq.raw := slice text start (endExclusive best);
           Seq.terminator := cand_terminator best |}) →
  (∀ text s s' m, s ≤ s' → P text s' m → P text s m) →
  ∀ text searchFrom m, m ∈ find_loop text searchFrom → P text searchFrom m.
Proof.
  intros Hstep Hmono text searchFrom.
  remember (length text - searchFrom) as n eqn:Hn.
  revert searchFrom Hn.
  induction (lt_wf n) as [n _ IH]. intros searchFrom -> m.
  rewrite find_loop_round.
  destruct (decide (searchFrom < length text)) as [Hlt|];
    [|by intros ?%elem_of_nil].
  destruct (indexOf text OSC_PROGRESS_PREFIX searchFrom) as [start|] eqn:Hs;
    [|by intros ?%elem_of_nil].
  apply indexOf_ge in Hs as Hge; [|lia].
  apply indexOf_bound in Hs as Hb; [|done].
  fold prefixLen in Hb.
  destruct (sort_candidates (candidates text (start + prefixLen)))
    as [|best rest] eqn:Hc.
  - intros Hm. apply (Hmono _ _ (start + prefixLen)); [lia|].
    eapply IH; [|reflexivity|exact Hm]. unfold prefixLen in *. simpl in *. lia.
  - assert (start + prefixLen < endExclusive best) as Hbest.
    { apply (candidates_after text); [done|].
      apply sort_candidates_elem. rewrite Hc. left. }
    intros [->|Hm]%elem_of_cons; [by eapply Hstep|].
    apply (Hmono _ _ (endExclusive best)); [lia|].
    eapply IH; [|reflexivity|exact Hm]. lia.
Qed.

(** Every match starts at a prefix found at or after [searchFrom], ends
    at the nearest terminator, and holds the text in between. *)
Lemma find_loop_match text searchFrom m :
  m ∈ find_loop text searchFrom →
  searchFrom ≤ Seq.start m
  ∧ occ OSC_PROGRESS_PREFIX text (Seq.start m)
  ∧ earliest text (Seq.start m + prefixLen) (Seq.end_ m) (Seq.terminator m)
  ∧ Seq.raw m = slice text (Seq.start m) (Seq.end_ m).
Proof.
  revert text searchFrom m.
  apply (find_loop_ind (λ text searchFrom m,
    searchFrom ≤ Seq.start m
    ∧ occ OSC_PROGRESS_PREFIX text (Seq.start m)
    ∧ earliest text (Seq.start m + prefixLen) (Seq.end_ m) (Seq.terminator m)
    ∧ Seq.raw m = slice text (Seq.start m) (Seq.end_ m))).
  - intros text searchFrom start best rest Hlt Hs Hc. simpl.
    apply indexOf_bound in Hs as Hb; [|done].
    apply indexOf_Some in Hs as (H1 & H2 & _); [|lia].
    repeat split; try done.
    + by eapply sorted_head_earliest.
    + by eapply sorted_head_earliest.
  - intros text s s' m Hle (H1 & H2). split; [lia | done].
Qed.

(** C4.  A match of [findOscProgressSequences] ends at the terminator
    whose end offset is smallest among all terminators, of whatever kind,
    that occur at or after the end of its prefix; and a prefix occurrence
    followed by no terminator of any kind starts no match. *)
Theorem find_nearest_terminator text m :
  m ∈ findOscProgressSequences text →
  occ OSC_PROGRESS_PREFIX text (Seq.start m)
  ∧ (∃ j, Seq.start m + prefixLen ≤ j
          ∧ occ (tstr (Seq.terminator m)) text j
          ∧ Seq.end_ m = j + length (tstr (Seq.terminator m)))
  ∧ (∀ k j, Seq.start m + prefixLen ≤ j → occ (tstr k) text j →
            Seq.end_ m ≤ j + length (tstr k))
  ∧ (∀ i, occ OSC_PROGRESS_PREFIX text i →
          (∀ k j, i + prefixLen ≤ j → ¬ occ (tstr k) text j) →
          Seq.start m ≠ i).
Proof.
  intros (_ & H1 & [H2 H3] & _)%find_loop_match.
  repeat (split; [done|]).
  intros i Hi Hno <-. destruct H2 as (j & Hj & Hocc & _).
  by apply (Hno _ _ Hj Hocc).
Qed.

End Scanner.

(** The test "chooses the earliest terminator when multiple are present". *)
Example find_earliest_of_two :
  findOscProgressSequences
    (str "a" ++ OSC_PROGRESS_PREFIX ++ str "1;50;X" ++ OSC_PROGRESS_BEL
     ++ OSC_PROGRESS_ST ++ str "b")
  = [ {| Seq.start := 1; Seq.end_ := 14;
         Seq.raw := OSC_PROGRESS_PREFIX ++ str "1;50;X" ++ OSC_PROGRESS_BEL;
         Seq.terminator := bel |} ].
Proof. reflexivity. Qed.

Lemma find_nearest_terminator_witness :
  let text := str "a" ++ OSC_PROGRESS_PREFIX ++ str "1;50;X"
              ++ OSC_PROGRESS_BEL ++ OSC_PROGRESS_ST ++ str "b" in
  let m := {| Seq.start := 1; Seq.end_ := 14;
              Seq.raw := OSC_PROGRESS_PREFIX ++ str "1;50;X"
                         ++ OSC_PROGRESS_BEL;
              Seq.terminator := bel |} in
  m ∈ findOscProgressSequences text
  ∧ ∀ k j, Seq.start m + prefixLen ≤ j → occ (tstr k) text j →
           Seq.end_ m ≤ j + length (tstr k).
Proof.
  cbv zeta.
  assert (Hin : {| Seq.start := 1; Seq.end_ := 14;
              Seq.raw := OSC_PROGRESS_PREFIX ++ str "1;50;X"
                         ++ OSC_PROGRESS_BEL;
              Seq.terminator := bel |}
     ∈ findOscProgressSequences
            (str "a" ++ OSC_PROGRESS_PREFIX ++ str "1;50;X"
              ++ OSC_PROGRESS_BEL ++ OSC_PROGRESS_ST ++ str "b")).
  { rewrite find_earliest_of_two. left. }
  split; [exact Hin|].
  exact (proj1 (proj2 (proj2 (find_nearest_terminator _ _ Hin)))).
Defined.

Example find_ignores_unterminated :
  findOscProgressSequences (str "a" ++ OSC_PROGRESS_PREFIX ++ str "1;50;Xb")
  = [].
Proof. reflexivity. Qed.

(** ** Frames inside a text *)

Section Frames.

Implicit Types (text pre body post : jsstring) (k : Terminator).

Lemma has_terminator_false s :
  has_terminator s = false ↔ ∀ k j, ¬ occ (tstr k) s j.
Proof.
  unfold has_terminator. rewrite !orb_false_iff, !includes_false. split.
  - intros [[H1 H2] H3] [| |] j; simpl; auto.
  - intros H. repeat split; intros j.
    + apply (H st). + apply (H bel). + apply (H c1st).
Qed.

Lemma has_terminator_true s :
  has_terminator s = true ↔ ∃ k j, occ (tstr k) s j.
Proof.
  unfold has_terminator. rewrite !orb_true_iff, !includes_true. split.
  - intros [[[j H]|[j H]]|[j H]];
      [exists st | exists bel | exists c1st]; by exists j.
  - intros ([| |] & j & H); simpl in H; eauto.
Qed.

Lemma lookup_mid (a b c : jsstring) i :
  i < length b → (a ++ b ++ c) !! (length a + i) = b !! i.
Proof.
  intros Hi. rewrite lookup_app_r by lia.
  replace (length a + i - length a) with i by lia.
  by rewrite lookup_app_l.
Qed.

(** The first code unit of each terminator, and the prefix, which has an
    ESC only in front. *)
Lemma tstr_head k : ∃ c, tstr k !! 0 = Some c ∧ c ∈ [ESC; BEL; C1ST].
Proof.
  destruct k; simpl; eexists; (split; [reflexivity|]);
    repeat first [by left | right].
Qed.

Lemma prefix_ESC_front i : 0 < i → OSC_PROGRESS_PREFIX !! i ≠ Some ESC.
Proof. do 7 (destruct i as [|i]; [by (lia || done)|]). done. Qed.

(** An occurrence of the prefix in [a ++ ESC :: b] that starts in [a]
    lies in [a]. *)
Lemma prefix_occ_before a b j :
  occ OSC_PROGRESS_PREFIX (a ++ ESC :: b) j → j < length a →
  j + prefixLen ≤ length a ∧ occ OSC_PROGRESS_PREFIX a j.
Proof.
  intros Hocc Hlt.
  assert (j + prefixLen ≤ length a) as Hle.
  { destruct (decide (j + prefixLen ≤ length a)); [done|].
    destruct (occ_straddle _ _ _ _ _ Hocc Hlt) as (i & Hi & Hc);
      [unfold prefixLen in *; lia|].
    by destruct (prefix_ESC_front i Hi). }
  split; [done|]. by apply (occ_app_l _ a (ESC :: b)).
Qed.

(** In [pre ++ PREFIX ++ rest], a search that starts past the prefixes
    of [pre] finds the prefix shown. *)
Lemma indexOf_prefix_at pre rest s :
  s ≤ length pre →
  (∀ j, s ≤ j → ¬ occ OSC_PROGRESS_PREFIX pre j) →
  indexOf (pre ++ OSC_PROGRESS_PREFIX ++ rest) OSC_PROGRESS_PREFIX s
  = Some (length pre).
Proof.
  intros Hs Hno. apply indexOf_first.
  - rewrite length_app. lia.
  - done.
  - rewrite <- (Nat.add_0_r (length pre)). apply occ_app_r.
    intros i c Hi. by apply lookup_app_l_Some.
  - intros j Hj Hlt Hocc.
    apply (prefix_occ_before pre (str "]9;4;" ++ rest)) in Hocc as [_ Hocc];
      [|done].
    by apply (Hno j).
Qed.

(** A well-terminated frame: its own terminator is the nearest one. *)
Lemma frame_earliest pre body k post :
  has_terminator body = false →
  earliest (pre ++ OSC_PROGRESS_PREFIX ++ body ++ tstr k ++ post)
    (length pre + prefixLen)
    (length pre + prefixLen + length body + length (tstr k)) k.
Proof.
  intros Hbody0. pose proof (proj1 (has_terminator_false body) Hbody0) as Hbody.
  set (text := pre ++ OSC_PROGRESS_PREFIX ++ body ++ tstr k ++ post).
  set (t := length pre + prefixLen + length body).
  assert (Hat : ∀ i, text !! (t + i) = (tstr k ++ post) !! i).
  { intros i. unfold text, t, prefixLen.
    rewrite !(assoc_L (++)), <- (assoc_L (++) _ (tstr k)).
    rewrite lookup_app_r by (rewrite !length_app; lia).
    f_equal. rewrite !length_app. lia. }
  assert (Hin : ∀ i, i < length body →
            text !! (length pre + prefixLen + i) = body !! i).
  { intros i Hi. unfold text, prefixLen.
    rewrite (assoc_L (++) pre), <- length_app. by apply lookup_mid. }
  split.
  - exists t. split; [unfold t; lia|]. split; [|done].
    intros i c Hi. rewrite Hat. by apply lookup_app_l_Some.
  - intros k' j' Hj' Hocc. fold t.
    destruct (decide (j' < t)) as [Hlt|Hge].
    + exfalso.
      destruct (decide (j' + length (tstr k') ≤ t)) as [Hfit|Hcross].
      * apply (Hbody k' (j' - (length pre + prefixLen))).
        intros i c Hi. apply lookup_lt_Some in Hi as Hlen.
        rewrite <- Hin by (unfold t in *; lia).
        replace (length pre + prefixLen + (j' - (length pre + prefixLen) + i))
          with (j' + i) by lia.
        by apply Hocc.
      * destruct k'; simpl in Hcross; try lia.
        assert (j' + 1 = t) as Ht by lia.
        specialize (Hocc 1 BACKSLASH eq_refl).
        rewrite Ht, <- (Nat.add_0_r t), Hat in Hocc.
        destruct k; simpl in Hocc; done.
    + destruct (decide (j' = t)) as [->|Hne].
      * destruct (tstr_head k') as (c & Hc & _).
        specialize (Hocc 0 c Hc). rewrite Hat in Hocc.
        destruct k, k'; simpl in Hc, Hocc |- *; try lia;
          rewrite <- Hocc in Hc; by vm_compute in Hc.
      * destruct k, k'; simpl; lia.
Qed.

End Frames.

(** ** Round trip: encode, then scan *)

Section RoundTrip.

Implicit Types (text pre body post s : jsstring) (k : Terminator)
  (m : OscProgressSequence).

Lemma all_terminated_occ s p :
  all_terminated s = true → occ OSC_PROGRESS_PREFIX s p →
  ∃ k j, p + prefixLen ≤ j ∧ occ (tstr k) s j.
Proof.
  revert p; induction s as [|c s IH]; intros p Hall Hocc.
  { specialize (Hocc 0 ESC eq_refl). by rewrite lookup_nil in Hocc. }
  cbn [all_terminated] in Hall. apply andb_prop in Hall as [Hhere Hall].
  destruct p as [|p].
  - apply (starts_with_drop _ (c :: s) 0) in Hocc. simpl drop in Hocc.
    rewrite Hocc in Hhere. apply has_terminator_true in Hhere as (k & j & Hj).
    exists k, (prefixLen + j). split; [lia|].
    intros i d Hi. specialize (Hj i d Hi). rewrite lookup_drop in Hj.
    by rewrite <- Nat.add_assoc.
  - destruct (IH p Hall) as (k & j & Hj & Hk).
    { intros i d Hi. apply (Hocc i d Hi). }
    exists k, (S j). split; [lia|]. intros i d Hi. apply (Hk i d Hi).
Qed.

Lemma filter_none {A} (P : A → Prop) `{∀ x, Decision (P x)} (l : list A) :
  Forall (λ x, ¬ P x) l → filter P l = [].
Proof.
  induction 1 as [|x l Hx _ IH]; [done|].
  by rewrite filter_cons_False.
Qed.

Lemma find_loop_bounds text searchFrom m :
  m ∈ find_loop text searchFrom →
  searchFrom ≤ Seq.start m ∧ Seq.start m + prefixLen < Seq.end_ m.
Proof.
  intros (H1 & _ & [(j & Hj & _ & ->) _] & _)%find_loop_match.
  split; [done|]. pose proof (tstr_nonempty (Seq.terminator m)).
  destruct (tstr (Seq.terminator m)); [done | simpl; lia].
Qed.

(** From any point of [pre] the scanner reaches the frame, having
    matched only inside [pre]. *)
Lemma scan_to_frame pre body k post searchFrom :
  all_terminated pre = true → has_terminator body = false →
  searchFrom ≤ length pre →
  let text := pre ++ OSC_PROGRESS_PREFIX ++ body ++ tstr k ++ post in
  let E := length pre + prefixLen + length body + length (tstr k) in
  ∃ before m,
    find_loop text searchFrom = before ++ m :: find_loop text E
    ∧ Forall (λ m', Seq.end_ m' ≤ length pre) before
    ∧ Seq.start m = length pre ∧ Seq.end_ m = E
    ∧ Seq.raw m = OSC_PROGRESS_PREFIX ++ body ++ tstr k.
Proof.
  intros Hall Hbody Hs text E.
  assert (Hlen : length text = E + length post).
  { unfold text, E, prefixLen. rewrite !length_app. lia. }
  assert (Hpre : length pre + prefixLen < length text).
  { rewrite Hlen. unfold E. destruct k; simpl; lia. }
  remember (length pre - searchFrom) as n eqn:Hn.
  revert searchFrom Hs Hn. induction (lt_wf n) as [n _ IH].
  intros searchFrom Hs ->.
  rewrite find_loop_round.
  destruct (decide (searchFrom < length text)) as [_|Hge]; [|lia].
  destruct (indexOf pre OSC_PROGRESS_PREFIX searchFrom) as [p|] eqn:Hp.
  - (* a prefix of [pre] comes first; it is terminated inside [pre] *)
    apply indexOf_bound in Hp as Hpb; [|done]. fold prefixLen in Hpb.
    apply indexOf_Some in Hp as (Hp1 & Hp2 & Hp3); [|done].
    assert (indexOf text OSC_PROGRESS_PREFIX searchFrom = Some p) as ->.
    { apply indexOf_first; [lia | done | by apply occ_app_l |].
      intros j Hj1 Hj2 Hocc.
      apply (prefix_occ_before pre (str "]9;4;" ++ body ++ tstr k ++ post))
        in Hocc as [_ Hocc]; [|lia].
      by apply (Hp3 j). }
    destruct (all_terminated_occ _ _ Hall Hp2) as (k0 & j0 & Hj0 & Hk0).
    pose proof (occ_bound _ _ _ (tstr_nonempty k0) Hk0) as Hb0.
    assert (occ (tstr k0) text j0) as Hk0' by by apply occ_app_l.
    destruct (sort_candidates (candidates text (p + prefixLen)))
      as [|best rest] eqn:Hc.
    { destruct (sorted_nil_no_terminator text (p + prefixLen)
                  ltac:(lia) Hc k0 j0 Hj0 Hk0'). }
    pose proof (sorted_head_earliest text (p + prefixLen) best rest
                  ltac:(lia) Hc) as [(jb & Hjb & _ & Heb) Hmin].
    specialize (Hmin _ _ Hj0 Hk0').
    pose proof (tstr_nonempty (cand_terminator best)) as Hne.
    assert (0 < length (tstr (cand_terminator best)))
      by (destruct (tstr (cand_terminator best)); [done | simpl; lia]).
    destruct (IH (length pre - endExclusive best) ltac:(lia)
                (endExclusive best) ltac:(lia) eq_refl)
      as (before & m & -> & Hbefore & Hm).
    eexists (_ :: before), m. split; [reflexivity|].
    split; [|done]. constructor; [simpl; lia | done].
  - (* no prefix is left in [pre]: the next one is the frame's *)
    pose proof (indexOf_None _ _ _ Hs Hp) as Hno.
    rewrite (indexOf_prefix_at pre (body ++ tstr k ++ post)) by done.
    pose proof (frame_earliest pre body k post Hbody) as He.
    destruct (earliest_sorted text (length pre + prefixLen) _ _
                ltac:(lia) He) as ([e kb] & rest & -> & HE).
    simpl in HE. subst e. simpl.
    eexists [], _. split; [reflexivity|].
    split; [constructor|]. simpl. repeat split; try done.
    unfold slice, text, E.
    rewrite drop_app_length.
    replace (length pre + prefixLen + length body + length (tstr k)
             - length pre)
      with (length (OSC_PROGRESS_PREFIX ++ body ++ tstr k))
      by (unfold prefixLen; rewrite !length_app; lia).
    rewrite !(assoc_L (++)). rewrite take_app_length.
    by rewrite <- !(assoc_L (++)).
Qed.

Lemma framing_free_app s1 s2 :
  framing_free s1 → framing_free s2 → framing_free (s1 ++ s2).
Proof.
  unfold framing_free. rewrite !elem_of_app. tauto.
Qed.

Lemma framing_free_no_terminator s :
  framing_free s → has_terminator s = false.
Proof.
  intros (H1 & H2 & H3). apply has_terminator_false. intros k j Hocc.
  destruct (tstr_head k) as (c & Hc & Hin).
  specialize (Hocc 0 c Hc). apply list_elem_of_lookup_2 in Hocc.
  destruct k; simpl in Hc; injection Hc as <-; done.
Qed.

Lemma digits_framing_free (d : Decimal.uint) :
  framing_free (str (NilEmpty.string_of_uint d)).
Proof.
  unfold framing_free.
  induction d as [|d IH|d IH|d IH|d IH|d IH|d IH|d IH|d IH|d IH|d IH];
    simpl; rewrite ?elem_of_nil, ?elem_of_cons; try tauto;
    destruct IH as (I1 & I2 & I3);
    repeat split; (intros [Hc|Hc]; [by vm_compute in Hc | done]).
Qed.

Lemma N_toString_framing_free (n : N) : framing_free (N_toString n).
Proof.
  unfold N_toString, NilZero.string_of_uint.
  destruct (N.to_uint n) eqn:E; try apply digits_framing_free.
  unfold framing_free. simpl. rewrite !list_elem_of_singleton.
  repeat split; intros Hc; by vm_compute in Hc.
Qed.

Lemma str_framing_free (lit : string) :
  forallb (λ c, negb (N.eqb c ESC || N.eqb c BEL || N.eqb c C1ST)) (str lit)
  = true →
  framing_free (str lit).
Proof.
  intros H. rewrite forallb_forall in H.
  repeat split; intros Hin%list_elem_of_In%H; by vm_compute in Hin.
Qed.

Lemma Number_toString_framing_free (x : number) :
  framing_free (Number_toString x).
Proof.
  destruct x as [|[|]|q]; cbn [Number_toString];
    try by apply str_framing_free.
  unfold Z_toString. destruct (Qfloor q);
    try apply N_toString_framing_free.
  apply framing_free_app;
    [by apply str_framing_free | apply N_toString_framing_free].
Qed.

Lemma frame_shape st percent cleanLabel end_ :
  frame st percent cleanLabel end_ =
  OSC_PROGRESS_PREFIX ++ frame_body st percent cleanLabel ++ end_.
Proof.
  unfold frame, frame_body.
  destruct percent;
    [|change (str ";;") with (str ";" ++ [] ++ str ";")];
    repeat rewrite <- app_assoc; reflexivity.
Qed.

Lemma frame_body_framing_free st percent L :
  framing_free (frame_body st percent (sanitizeLabel L)).
Proof.
  unfold frame_body.
  repeat apply framing_free_app;
    try apply N_toString_framing_free; try by apply str_framing_free.
  - destruct percent; [apply Number_toString_framing_free|].
    unfold framing_free. rewrite !elem_of_nil. tauto.
  - destruct (sanitizeLabel_clean L) as (H1 & H2 & H3 & _). done.
Qed.

Lemma resolveTerminator_tstr (terminator : option Terminator) :
  ∃ k, resolveTerminator terminator = tstr k.
Proof.
  destruct terminator as [[| |]|]; simpl;
    [exists st | exists bel | exists st | exists st]; done.
Qed.

(** C6, as the code has it.  Encode a frame with any state, any percent
    or none, a sanitized label and either emitted terminator; put it in a
    text in which every prefix before the frame is terminated before the
    frame.  Then [findOscProgressSequences] returns exactly one match
    within the span of the frame, and its [raw] is the frame. *)
Theorem find_recovers_frame (st : N) (percent : option number)
    (L : jsstring) (terminator : option Terminator) (pre post : jsstring) :
  all_terminated pre = true →
  let encoded :=
    frame st percent (sanitizeLabel L) (resolveTerminator terminator) in
  ∃ m,
    filter (within (length pre) (length pre + length encoded))
           (findOscProgressSequences (pre ++ encoded ++ post)) = [m]
    ∧ Seq.start m = length pre
    ∧ Seq.end_ m = length pre + length encoded
    ∧ Seq.raw m = encoded.
Proof.
  intros Hall encoded. unfold encoded. rewrite frame_shape.
  destruct (resolveTerminator_tstr terminator) as [k ->].
  set (body := frame_body st percent (sanitizeLabel L)).
  assert (Hbody : has_terminator body = false)
    by apply framing_free_no_terminator, frame_body_framing_free.
  destruct (scan_to_frame pre body k post 0 Hall Hbody ltac:(lia))
    as (before & m & Hfind & Hbefore & Hs & He & Hraw).
  assert (HE : length pre + prefixLen + length body + length (tstr k)
               = length pre + length (OSC_PROGRESS_PREFIX ++ body ++ tstr k))
    by (unfold prefixLen; rewrite !length_app; lia).
  rewrite HE in *.
  exists m. repeat split; try done.
  unfold findOscProgressSequences.
  rewrite <- !(assoc_L (++)). rewrite Hfind.
  rewrite filter_app, filter_cons_True by (unfold within; lia).
  rewrite (filter_none _ before), filter_none; [done| |].
  - apply Forall_forall. intros m' Hm' [H1 H2].
    apply find_loop_bounds in Hm'. lia.
  - apply Forall_forall. intros m' Hm' [H1 H2].
    assert (m' ∈ find_loop
                   (pre ++ OSC_PROGRESS_PREFIX ++ body ++ tstr k ++ post) 0)
      as Hin by (rewrite Hfind; apply elem_of_app; by left).
    apply find_loop_bounds in Hin.
    rewrite Forall_forall in Hbefore. specialize (Hbefore _ Hm'). lia.
Qed.

End RoundTrip.

Lemma find_recovers_frame_witness :
  let encoded := frame 1 (Some (of_Z 50)) (sanitizeLabel (str "X"))
                   (resolveTerminator (Some bel)) in
  all_terminated (str "a") = true
  ∧ ∃ m,
      filter (within 1 (1 + length encoded))
             (findOscProgressSequences (str "a" ++ encoded ++ str "b")) = [m]
      ∧ Seq.start m = 1
      ∧ Seq.end_ m = 1 + length encoded
      ∧ Seq.raw m = encoded.
Proof.
  split; [reflexivity|].
  apply (find_recovers_frame 1 (Some (of_Z 50)) (str "X") (Some bel)
           (str "a") (str "b")).
  reflexivity.
Defined.

(** C6 as stated fails: behind an unterminated prefix the scanner's one
    match starts at that prefix and swallows the frame; no match has the
    frame as its [raw]. *)
Lemma find_frame_behind_open_prefix :
  let encoded := frame 1 (Some (of_Z 50)) (sanitizeLabel (str "X"))
                   (resolveTerminator None) in
  let text := OSC_PROGRESS_PREFIX ++ encoded in
  findOscProgressSequences text
  = [ {| Seq.start := 0; Seq.end_ := length text; Seq.raw := text;
         Seq.terminator := st |} ]
  ∧ filter (within (length OSC_PROGRESS_PREFIX)
                   (length OSC_PROGRESS_PREFIX + length encoded))
           (findOscProgressSequences text) = []
  ∧ ¬ ∃ m, m ∈ findOscProgressSequences text ∧ Seq.raw m = encoded.
Proof.
  cbv zeta.
  assert (H : findOscProgressSequences
            (OSC_PROGRESS_PREFIX ++ frame 1 (Some (of_Z 50))
               (sanitizeLabel (str "X")) (resolveTerminator None))
          = [ {| Seq.start := 0; Seq.end_ := 20;
                 Seq.raw := OSC_PROGRESS_PREFIX ++ frame 1 (Some (of_Z 50))
                   (sanitizeLabel (str "X")) (resolveTerminator None);
                 Seq.terminator := st |} ]) by by vm_compute.
  rewrite H. split; [done|]. split; [by vm_compute|].
  intros (m & ->%list_elem_of_singleton & Hraw). by vm_compute in Hraw.
Qed.

(** ** Scanner: order and shape of the matches *)

Section Matches.

Implicit Types (text pat : jsstring) (m : OscProgressSequence).

Lemma in_order_weaken s s' l : s ≤ s' → in_order s' l → in_order s l.
Proof.
  destruct l as [|m l]; simpl; [done|].
  intros ? (? & ? & ?). split; [lia|done].
Qed.

Lemma in_order_start s l m : in_order s l → m ∈ l → s ≤ Seq.start m.
Proof.
  revert s; induction l as [|h l IH]; intros s; [by intros _ ?%elem_of_nil|].
  simpl. intros (H1 & H2 & H3) [->|Hm]%elem_of_cons; [done|].
  pose proof (IH _ H3 Hm). lia.
Qed.

Lemma in_order_lookup s l i j m1 m2 :
  in_order s l → i < j → l !! i = Some m1 → l !! j = Some m2 →
  Seq.end_ m1 ≤ Seq.start m2.
Proof.
  revert s i j; induction l as [|h l IH]; intros s i j; [done|].
  simpl. intros (H1 & H2 & H3) Hij.
  destruct j as [|j]; [lia|]. destruct i as [|i]; simpl.
  - intros [= ->] Hj. apply (in_order_start _ l); [done|].
    by eapply list_elem_of_lookup_2.
  - apply (IH _ i j H3). lia.
Qed.

Lemma find_loop_in_order text searchFrom :
  in_order searchFrom (find_loop text searchFrom).
Proof.
  remember (length text - searchFrom) as n eqn:Hn.
  revert searchFrom Hn.
  induction (lt_wf n) as [n _ IH]. intros searchFrom ->.
  rewrite find_loop_round.
  destruct (decide (searchFrom < length text)) as [Hlt|]; [|done].
  destruct (indexOf text OSC_PROGRESS_PREFIX searchFrom) as [start|] eqn:Hs;
    [|done].
  apply indexOf_ge in Hs as Hge; [|lia].
  apply indexOf_bound in Hs as Hb; [|done].
  fold prefixLen in Hb.
  assert (0 < prefixLen) as Hpos by (unfold prefixLen; simpl; lia).
  destruct (sort_candidates (candidates text (start + prefixLen)))
    as [|best rest] eqn:Hc.
  - apply (in_order_weaken _ (start + prefixLen)); [lia|].
    eapply IH; [|reflexivity]. lia.
  - assert (start + prefixLen < endExclusive best) as Hbest.
    { apply (candidates_after text); [done|].
      apply sort_candidates_elem. rewrite Hc. left. }
    simpl. split; [done|]. split; [lia|].
    eapply IH; [|reflexivity]. lia.
Qed.

Lemma find_loop_end text searchFrom m :
  m ∈ find_loop text searchFrom → Seq.end_ m ≤ length text.
Proof.
  intros (_ & _ & [(j & _ & Hocc & ->) _] & _)%find_loop_match.
  apply occ_bound in Hocc; [done | apply tstr_nonempty].
Qed.

(** X1.  Every match of [findOscProgressSequences] is longer than the
    prefix and ends within the text; and the matches come in text order
    and do not overlap: a match starts at or after the end of every match
    listed before it. *)
Theorem find_matches_in_order text :
  (∀ m, m ∈ findOscProgressSequences text →
        Seq.start m + prefixLen < Seq.end_ m ∧ Seq.end_ m ≤ length text)
  ∧ (∀ i j m1 m2,
        findOscProgressSequences text !! i = Some m1 →
        findOscProgressSequences text !! j = Some m2 →
        i < j → Seq.end_ m1 ≤ Seq.start m2).
Proof.
  unfold findOscProgressSequences. split.
  - intros m Hm. split.
    + by apply find_loop_bounds in Hm as [_ ?].
    + by apply find_loop_end in Hm.
  - intros i j m1 m2 H1 H2 Hij.
    by apply (in_order_lookup 0 _ i j _ _ (find_loop_in_order text 0)).
Qed.

Lemma slice_split text a b c :
  a ≤ b → b ≤ c → slice text a c = slice text a b ++ slice text b c.
Proof.
  intros Hab Hbc. unfold slice.
  replace (drop b text) with (drop (b - a) (drop a text))
    by (rewrite drop_drop; f_equal; lia).
  rewrite take_take_drop. f_equal. lia.
Qed.

Lemma slice_occ pat text k :
  occ pat text k → slice text k (k + length pat) = pat.
Proof.
  intros Hocc. unfold slice.
  replace (k + length pat - k) with (length pat) by lia.
  apply list_eq. intros i. rewrite lookup_take, lookup_drop.
  case_decide as Hi.
  - destruct (lookup_lt_is_Some_2 pat i Hi) as [c Hc].
    rewrite Hc. by apply Hocc.
  - symmetry. apply lookup_ge_None. lia.
Qed.

Lemma occ_slice pat text a b k :
  occ pat (slice text a b) k → occ pat text (a + k).
Proof.
  intros Hocc i c Hi. specialize (Hocc i c Hi). unfold slice in Hocc.
  apply lookup_take_Some in Hocc as [Hocc _].
  rewrite lookup_drop in Hocc. by rewrite <- Nat.add_assoc.
Qed.

Lemma length_slice text a b :
  b ≤ length text → length (slice text a b) = b - a.
Proof. intros Hb. unfold slice. rewrite length_take, length_drop. lia. Qed.

(** X2.  Every match is a whole frame: its [raw] text is the prefix, a
    body in which no terminator of any kind occurs, and the terminator
    recorded in [terminator]; [raw] is the text from [start] to [end], so
    that its length is [end - start]. *)
Theorem find_match_is_frame text m :
  m ∈ findOscProgressSequences text →
  ∃ body,
    Seq.raw m = OSC_PROGRESS_PREFIX ++ body ++ tstr (Seq.terminator m)
    ∧ has_terminator body = false
    ∧ Seq.raw m = slice text (Seq.start m) (Seq.end_ m)
    ∧ length (Seq.raw m) = Seq.end_ m - Seq.start m.
Proof.
  unfold findOscProgressSequences. intros Hm.
  pose proof (find_loop_end _ _ _ Hm) as Hend.
  apply find_loop_match in Hm as (_ & Hp & [(j & Hj & Hk & HE) Hmin] & Hraw).
  pose proof (occ_bound _ _ _ (tstr_nonempty _) Hk) as Hjb.
  assert (0 < length (tstr (Seq.terminator m))) as Hpos
    by (destruct (Seq.terminator m); simpl; lia).
  exists (slice text (Seq.start m + prefixLen) j).
  split; [|split; [|split; [done|]]].
  - rewrite Hraw.
    rewrite (slice_split text _ (Seq.start m + prefixLen)) by lia.
    rewrite (slice_split text (Seq.start m + prefixLen) j) by lia.
    unfold prefixLen at 1. rewrite (slice_occ _ _ _ Hp).
    by rewrite HE, (slice_occ _ _ _ Hk).
  - apply has_terminator_false. intros k' j' Hocc.
    pose proof (occ_bound _ _ _ (tstr_nonempty _) Hocc) as Hb.
    rewrite length_slice in Hb by lia.
    apply occ_slice in Hocc. apply Hmin in Hocc; lia.
  - rewrite Hraw. by apply length_slice.
Qed.

Lemma find_loop_none text searchFrom :
  (∀ p k j, searchFrom ≤ p → occ OSC_PROGRESS_PREFIX text p →
            p + prefixLen ≤ j → ¬ occ (tstr k) text j) →
  find_loop text searchFrom = [].
Proof.
  remember (length text - searchFrom) as n eqn:Hn.
  revert searchFrom Hn.
  induction (lt_wf n) as [n _ IH]. intros searchFrom -> Hno.
  rewrite find_loop_round.
  destruct (decide (searchFrom < length text)) as [Hlt|]; [|done].
  destruct (indexOf text OSC_PROGRESS_PREFIX searchFrom) as [start|] eqn:Hs;
    [|done].
  apply indexOf_bound in Hs as Hb; [|done]. fold prefixLen in Hb.
  apply indexOf_Some in Hs as (Hge & Hocc & _); [|lia].
  assert (0 < prefixLen) as Hpos by (unfold prefixLen; simpl; lia).
  destruct (sort_candidates (candidates text (start + prefixLen)))
    as [|best rest] eqn:Hc.
  - eapply IH; [|reflexivity|]; [lia|].
    intros p k j Hp. apply Hno. lia.
  - apply sorted_head_earliest in Hc as [(j & Hj & Hk & _) _]; [|done].
    destruct (Hno start _ j Hge Hocc Hj Hk).
Qed.

(** X3.  [findOscProgressSequences] returns no match exactly when no
    prefix occurrence has a terminator of any kind at or after its end. *)
Theorem find_nothing_iff text :
  findOscProgressSequences text = [] ↔
  ∀ p k j, occ OSC_PROGRESS_PREFIX text p → p + prefixLen ≤ j →
           ¬ occ (tstr k) text j.
Proof.
  unfold findOscProgressSequences. split.
  - intros Hnil p k j Hp Hj Hk. rewrite find_loop_round in Hnil.
    assert (OSC_PROGRESS_PREFIX ≠ []) as Hne by done.
    pose proof (occ_bound _ _ _ Hne Hp) as Hpb. fold prefixLen in Hpb.
    assert (0 < prefixLen) as Hpos by (unfold prefixLen; simpl; lia).
    destruct (decide (0 < length text)) as [Hlt|]; [|lia].
    destruct (indexOf text OSC_PROGRESS_PREFIX 0) as [start|] eqn:Hs.
    + apply indexOf_bound in Hs as Hb; [|done]. fold prefixLen in Hb.
      apply indexOf_Some in Hs as (_ & _ & Hfirst); [|lia].
      assert (start ≤ p) as Hle.
      { destruct (decide (start ≤ p)); [done|].
        destruct (Hfirst p); [lia | lia | done]. }
      destruct (candidate_of_occ text (start + prefixLen) k j)
        as (c & Hc & _); [done | lia | done |].
      apply sort_candidates_elem in Hc.
      destruct (sort_candidates (candidates text (start + prefixLen)));
        [by apply elem_of_nil in Hc | done].
    + by destruct (indexOf_None text _ 0 (Nat.le_0_l _) Hs p (Nat.le_0_l _)).
  - intros Hno. apply find_loop_none. intros p k j _. apply Hno.
Qed.

End Matches.

Lemma find_matches_in_order_witness :
  ∃ m1 m2,
    findOscProgressSequences two_frames = [m1; m2]
    ∧ Seq.start m1 + prefixLen < Seq.end_ m1
    ∧ Seq.end_ m1 ≤ Seq.start m2
    ∧ Seq.end_ m2 ≤ length two_frames.
Proof.
  destruct (find_matches_in_order two_frames) as [Hbounds Horder].
  assert (∃ m1 m2, findOscProgressSequences two_frames = [m1; m2])
    as (m1 & m2 & Heq) by (eexists _, _; vm_compute; reflexivity).
  exists m1, m2. split; [exact Heq|].
  rewrite Heq in Hbounds, Horder. split; [|split].
  - apply Hbounds. left.
  - exact (Horder 0 1 m1 m2 eq_refl eq_refl (le_n 1)).
  - apply Hbounds. right. left.
Defined.

Lemma find_match_is_frame_witness :
  let text := str "a" ++ OSC_PROGRESS_PREFIX ++ str "1;50;X"
              ++ OSC_PROGRESS_BEL ++ OSC_PROGRESS_ST ++ str "b" in
  ∃ m body,
    m ∈ findOscProgressSequences text
    ∧ Seq.raw m = OSC_PROGRESS_PREFIX ++ body ++ tstr (Seq.terminator m)
    ∧ has_terminator body = false.
Proof.
  cbv zeta.
  assert (Hin : {| Seq.start := 1; Seq.end_ := 14;
              Seq.raw := OSC_PROGRESS_PREFIX ++ str "1;50;X"
                         ++ OSC_PROGRESS_BEL;
              Seq.terminator := bel |}
     ∈ findOscProgressSequences
            (str "a" ++ OSC_PROGRESS_PREFIX ++ str "1;50;X"
              ++ OSC_PROGRESS_BEL ++ OSC_PROGRESS_ST ++ str "b")).
  { rewrite find_earliest_of_two. left. }
  destruct (find_match_is_frame _ _ Hin) as (body & H1 & H2 & _).
  exact (ex_intro _ _ (ex_intro _ body (conj Hin (conj H1 H2)))).
Defined.

(** ** Scanner: text that arrives later *)

Section Appended.

Implicit Types (text a b pat : jsstring) (k : Terminator).

(** The first occurrence at or after [from] in [a] is still the first
    when text is appended. *)
Lemma indexOf_app_l a b pat from j :
  pat ≠ [] → from ≤ length a →
  indexOf a pat from = Some j → indexOf (a ++ b) pat from = Some j.
Proof.
  intros Hpat Hfrom Hj.
  apply indexOf_bound in Hj as Hb; [|done].
  apply indexOf_Some in Hj as (Hge & Hocc & Hfirst); [|done].
  apply indexOf_first.
  - rewrite length_app. lia.
  - done.
  - by apply occ_app_l.
  - intros i Hi1 Hi2 Hi. apply (Hfirst i Hi1 Hi2).
    apply (occ_app_l pat a b i); [lia | done].
Qed.

(** The last code unit tells the kinds of terminator apart. *)
Lemma terminator_kind_unique text k1 j1 k2 j2 :
  occ (tstr k1) text j1 → occ (tstr k2) text j2 →
  j1 + length (tstr k1) = j2 + length (tstr k2) → k1 = k2.
Proof.
  intros H1 H2 HE.
  assert (Hlast : ∀ k j, occ (tstr k) text j →
            text !! (j + length (tstr k) - 1)
            = Some (match k with
                    | st => BACKSLASH | bel => BEL | c1st => C1ST
                    end)).
  { intros k j Hocc. destruct k; simpl.
    - replace (j + 2 - 1) with (j + 1) by lia. by apply (Hocc 1).
    - replace (j + 1 - 1) with (j + 0) by lia. by apply (Hocc 0).
    - replace (j + 1 - 1) with (j + 0) by lia. by apply (Hocc 0). }
  pose proof (Hlast _ _ H1) as E1. pose proof (Hlast _ _ H2) as E2.
  rewrite HE, E2 in E1. by destruct k1, k2.
Qed.

Lemma earliest_app_l a b after E k :
  earliest a after E k → earliest (a ++ b) after E k.
Proof.
  intros [(j & Hj & Hocc & ->) Hmin].
  pose proof (occ_bound _ _ _ (tstr_nonempty k) Hocc) as Hb.
  split.
  - exists j. split; [done|]. split; [|done]. by apply occ_app_l.
  - intros k' j' Hj' Hocc'.
    destruct (decide (j' + length (tstr k') ≤ length a)) as [Hin|Hout];
      [|lia].
    apply Hmin; [done|]. by apply (occ_app_l _ a b).
Qed.

Lemma slice_app_l a b s E :
  s ≤ E → E ≤ length a → slice (a ++ b) s E = slice a s E.
Proof.
  intros HsE HE. unfold slice. rewrite drop_app_le by lia.
  apply take_app_le. rewrite length_drop. lia.
Qed.

Lemma find_loop_app a b searchFrom :
  find_loop a searchFrom `prefix_of` find_loop (a ++ b) searchFrom.
Proof.
  remember (length a - searchFrom) as n eqn:Hn.
  revert searchFrom Hn.
  induction (lt_wf n) as [n _ IH]. intros searchFrom ->.
  rewrite (find_loop_round a).
  destruct (decide (searchFrom < length a)) as [Hlt|]; [|apply prefix_nil].
  destruct (indexOf a OSC_PROGRESS_PREFIX searchFrom) as [start|] eqn:Hs;
    [|apply prefix_nil].
  apply indexOf_ge in Hs as Hge; [|lia].
  apply indexOf_bound in Hs as Hb; [|done]. fold prefixLen in Hb.
  destruct (sort_candidates (candidates a (start + prefixLen)))
    as [|best rest] eqn:Hc.
  { rewrite find_loop_none; [apply prefix_nil|].
    intros p k j Hp _ Hj.
    apply (sorted_nil_no_terminator a (start + prefixLen)); [done|done|lia]. }
  pose proof (sorted_head_earliest a _ _ _ Hb Hc) as He.
  assert (start + prefixLen < endExclusive best) as Hbest.
  { apply (candidates_after a); [done|].
    apply sort_candidates_elem. rewrite Hc. left. }
  assert (endExclusive best ≤ length a) as Hend.
  { destruct He as [(j & _ & Hocc & ->) _].
    apply occ_bound in Hocc; [done | apply tstr_nonempty]. }
  rewrite (find_loop_round (a ++ b)).
  destruct (decide (searchFrom < length (a ++ b))) as [_|Hge'];
    [|rewrite length_app in Hge'; lia].
  rewrite (indexOf_app_l a b _ _ start) by (done || lia).
  pose proof (earliest_app_l a b _ _ _ He) as He'.
  assert (start + prefixLen ≤ length (a ++ b)) as Hb'
    by (rewrite length_app; lia).
  destruct (earliest_sorted (a ++ b) (start + prefixLen)
              (endExclusive best) (cand_terminator best) Hb' He')
    as (best' & rest' & Hc' & HE).
  rewrite Hc'.
  assert (cand_terminator best' = cand_terminator best) as Hk.
  { apply sorted_head_earliest in Hc' as [(j' & _ & Hocc' & Hj') _];
      [|rewrite length_app; lia].
    destruct He' as [(j & _ & Hocc & Hj) _].
    apply (terminator_kind_unique (a ++ b) _ j' _ j); [done|done|].
    congruence. }
  rewrite HE, Hk, slice_app_l by lia.
  apply prefix_cons. eapply IH; [|reflexivity]. lia.
Qed.

(** X18.  Text that arrives later does not change what was found: the
    matches of [a] are the first matches of [a ++ b], with the same
    offsets, raw text and terminator. *)
Theorem find_appended a b :
  findOscProgressSequences a `prefix_of` findOscProgressSequences (a ++ b).
Proof. apply find_loop_app. Qed.

End Appended.

(** ** Stripping *)

Section Strip.

Implicit Types (text pre body rest current : jsstring) (k : Terminator).

(** One round of the loop of [stripOscProgress]. *)
Lemma strip_loop_round current :
  strip_loop current =
  match indexOf current OSC_PROGRESS_PREFIX 0 with
  | None => current
  | Some start =>
      strip_loop (slice current 0 start
                  ++ slice_from current (cutEnd current start))
  end.
Proof.
  funelim (strip_loop current);
    repeat match goal with
           | H : inspect _ = _ |- _ => clear H
           | H : @eq (option nat) _ _ |- _ => rewrite H
           end; reflexivity.
Qed.

Lemma strip_loop_plain current :
  includes current OSC_PROGRESS_PREFIX = false → strip_loop current = current.
Proof.
  unfold includes. rewrite strip_loop_round.
  by destruct (indexOf current OSC_PROGRESS_PREFIX 0).
Qed.

Lemma strip_round_shorter current start :
  indexOf current OSC_PROGRESS_PREFIX 0 = Some start →
  length (slice current 0 start
          ++ slice_from current (cutEnd current start)) < length current.
Proof.
  intros [H1 H2]%cutEnd_after. unfold slice, slice_from.
  rewrite length_app, length_take, !length_drop.
  unfold prefixLen in *; simpl in *. lia.
Qed.

Lemma strip_loop_no_prefix current :
  includes (strip_loop current) OSC_PROGRESS_PREFIX = false.
Proof.
  remember (length current) as n eqn:Hn. revert current Hn.
  induction (lt_wf n) as [n _ IH]. intros current ->.
  rewrite strip_loop_round.
  destruct (indexOf current OSC_PROGRESS_PREFIX 0) as [start|] eqn:E.
  - eapply IH; [|reflexivity]. by apply strip_round_shorter.
  - unfold includes. by rewrite E.
Qed.

(** C10.  Whatever the input, the output of [stripOscProgress] contains
    no OSC 9;4 prefix.  The loop runs again on the text it has itself put
    together from the two sides of the span it removed (a span that ends at
    the nearest terminator, or at the end of the string when there is
    none), so a prefix formed by joining the two sides is removed in turn.
    Stripping the output again changes nothing. *)
Theorem strip_leaves_no_prefix text :
  includes (stripOscProgress text) OSC_PROGRESS_PREFIX = false
  ∧ stripOscProgress text =
    match indexOf text OSC_PROGRESS_PREFIX 0 with
    | None => text
    | Some start =>
        stripOscProgress
          (slice text 0 start ++ slice_from text (cutEnd text start))
    end
  ∧ stripOscProgress (stripOscProgress text) = stripOscProgress text.
Proof.
  unfold stripOscProgress. split; [apply strip_loop_no_prefix|].
  split; [apply strip_loop_round|].
  apply strip_loop_plain, strip_loop_no_prefix.
Qed.

Lemma interleave_app a p0 fs : a ++ interleave p0 fs = interleave (a ++ p0) fs.
Proof.
  destruct fs as [|[[body k] p] fs]; simpl; [done|].
  by rewrite <- app_assoc.
Qed.

Lemma surrounding_app a p0 fs :
  a ++ surrounding p0 fs = surrounding (a ++ p0) fs.
Proof.
  destruct fs as [|[[body k] p] fs]; simpl; [done|].
  by rewrite <- app_assoc.
Qed.

Lemma strip_interleave p0 fs :
  forallb well_terminated fs = true →
  includes (surrounding p0 fs) OSC_PROGRESS_PREFIX = false →
  strip_loop (interleave p0 fs) = surrounding p0 fs.
Proof.
  revert p0; induction fs as [|[[body k] p] fs IH]; intros p0 Hwt Hplain.
  { by apply strip_loop_plain. }
  simpl in Hwt. apply andb_prop in Hwt as [Hbody Hwt].
  apply negb_true_iff in Hbody. simpl in Hbody.
  cbn [interleave surrounding] in *.
  pose proof (proj1 (includes_false _ _) Hplain) as Hno.
  rewrite strip_loop_round.
  rewrite (indexOf_prefix_at p0 (body ++ tstr k ++ interleave p fs) 0);
    [|lia|].
  2:{ intros j _ Hocc. apply (Hno j).
      apply occ_app_l; [|done]. by apply occ_bound in Hocc. }
  pose proof (frame_earliest p0 body k (interleave p fs) Hbody) as He.
  rewrite (cutEnd_earliest _ (length p0) _ _) with (2 := He)
    by (unfold prefixLen; rewrite !length_app; simpl; lia).
  unfold slice, slice_from. rewrite Nat.sub_0_r, drop_0.
  rewrite take_app_length.
  replace (length p0 + prefixLen + length body + length (tstr k))
    with (length (p0 ++ OSC_PROGRESS_PREFIX ++ body ++ tstr k))
    by (unfold prefixLen; rewrite !length_app; lia).
  rewrite !(assoc_L (++)), drop_app_length.
  rewrite interleave_app. rewrite IH; [by rewrite surrounding_app|done|].
  by rewrite <- surrounding_app.
Qed.

(** In [pre ++ PREFIX ++ rest] with no terminator in [rest], every
    terminator lies in [pre]. *)
Lemma terminator_before_open_prefix pre rest k j :
  has_terminator rest = false →
  occ (tstr k) (pre ++ OSC_PROGRESS_PREFIX ++ rest) j →
  j + length (tstr k) ≤ length pre.
Proof.
  intros Hrest Hocc.
  pose proof (proj1 (has_terminator_false rest) Hrest) as Hno.
  destruct (decide (j + length (tstr k) ≤ length pre)) as [|Hout]; [done|].
  exfalso. destruct (decide (length pre ≤ j)) as [Hge|Hlt].
  - replace j with (length pre + (j - length pre)) in Hocc by lia.
    apply occ_app_r in Hocc. remember (j - length pre) as i eqn:Hi0.
    clear Hi0. destruct (decide (prefixLen ≤ i)) as [Hi|Hi].
    + replace i with (length OSC_PROGRESS_PREFIX + (i - prefixLen))
        in Hocc by (unfold prefixLen in *; lia).
      apply occ_app_r in Hocc. by apply (Hno k (i - prefixLen)).
    + destruct (tstr_head k) as (c & Hc & Hin).
      pose proof (Hocc 0 c Hc) as H0. rewrite Nat.add_0_r in H0.
      rewrite lookup_app_l in H0 by (unfold prefixLen in *; lia).
      unfold prefixLen in Hi. simpl in Hi.
      destruct i as [|i].
      * destruct k; simpl in Hc; injection Hc as <-;
          try (by vm_compute in H0).
        specialize (Hocc 1 BACKSLASH eq_refl). by vm_compute in Hocc.
      * do 5 (destruct i as [|i];
              [destruct k; simpl in Hc; injection Hc as <-;
               by vm_compute in H0|]).
        lia.
  - destruct k; simpl in Hout; try lia.
    specialize (Hocc 1 BACKSLASH eq_refl).
    replace (j + 1) with (length pre) in Hocc by lia.
    change (OSC_PROGRESS_PREFIX ++ rest)
      with (ESC :: str "]9;4;" ++ rest) in Hocc.
    rewrite list_lookup_middle in Hocc by done. by vm_compute in Hocc.
Qed.

(** Behind an unterminated prefix nothing survives. *)
Lemma strip_open_prefix pre rest :
  has_terminator rest = false →
  strip_loop (pre ++ OSC_PROGRESS_PREFIX ++ rest) = strip_loop pre.
Proof.
  intros Hrest. remember (length pre) as n eqn:Hn. revert pre Hn.
  induction (lt_wf n) as [n _ IH]. intros pre ->.
  set (text := pre ++ OSC_PROGRESS_PREFIX ++ rest).
  assert (Hlen : length pre + prefixLen ≤ length text)
    by (unfold text, prefixLen; rewrite !length_app; lia).
  assert (Hin : ∀ k j, occ (tstr k) text j →
            j + length (tstr k) ≤ length pre ∧ occ (tstr k) pre j).
  { intros k j Hocc.
    pose proof (terminator_before_open_prefix _ _ _ _ Hrest Hocc) as Hb.
    split; [done|]. by apply (occ_app_l _ pre (OSC_PROGRESS_PREFIX ++ rest)). }
  rewrite (strip_loop_round text), (strip_loop_round pre).
  destruct (indexOf pre OSC_PROGRESS_PREFIX 0) as [s|] eqn:Hs.
  - apply indexOf_bound in Hs as Hsb; [|done]. fold prefixLen in Hsb.
    pose proof (strip_round_shorter _ _ Hs) as Hshort.
    apply indexOf_Some in Hs as (_ & Hs2 & Hs3); [|lia].
    assert (indexOf text OSC_PROGRESS_PREFIX 0 = Some s) as ->.
    { apply indexOf_first; [lia | lia | by apply occ_app_l |].
      intros j Hj1 Hj2 Hocc.
      apply (prefix_occ_before pre (str "]9;4;" ++ rest))
        in Hocc as [_ Hocc]; [|lia].
      by apply (Hs3 j); [lia|..]. }
    destruct (sort_candidates (candidates pre (s + prefixLen)))
      as [|best cs] eqn:Hc.
    + (* unterminated inside [pre] as well *)
      pose proof (sorted_nil_no_terminator pre _ Hsb Hc) as Hnone.
      rewrite (cutEnd_unterminated pre s Hsb Hnone).
      rewrite (cutEnd_unterminated text s) by
        (try lia; intros k j Hj Hocc; apply (Hnone k j Hj), Hin, Hocc).
      unfold slice, slice_from, text.
      rewrite !drop_all, Nat.sub_0_r, !drop_0.
      by rewrite take_app_le by lia.
    + pose proof (sorted_head_earliest pre _ _ _ Hsb Hc) as He.
      assert (earliest text (s + prefixLen) (endExclusive best)
                (cand_terminator best)) as He'.
      { destruct He as [(j & Hj & Hocc & ->) Hmin]. split.
        - exists j. split; [done|]. split; [|done].
          apply occ_app_l; [|done].
          by apply occ_bound; [apply tstr_nonempty|].
        - intros k' j' Hj' Hocc'. apply Hmin; [done|]. by apply Hin. }
      assert (endExclusive best ≤ length pre) as HE.
      { destruct He as [(j & Hj & Hocc & ->) _].
        by apply occ_bound; [apply tstr_nonempty|]. }
      rewrite (cutEnd_earliest pre s _ _ Hsb He) in *.
      rewrite (cutEnd_earliest text s _ _ ltac:(lia) He').
      unfold slice, slice_from, text in *.
      rewrite Nat.sub_0_r, drop_0 in *.
      rewrite take_app_le by lia. rewrite drop_app_le by lia.
      rewrite (assoc_L (++)).
      eapply IH; [|reflexivity]. exact Hshort.
  - subst text.
    rewrite (indexOf_prefix_at pre rest 0) by
      (try lia; intros j Hj;
       apply (indexOf_None pre _ 0 ltac:(lia) Hs j); lia).
    rewrite (cutEnd_unterminated _ (length pre)) by
      (try lia; intros k j Hj Hocc; apply Hin in Hocc as [Hb _];
       change prefixLen with 6 in Hj; lia).
    unfold slice, slice_from.
    rewrite drop_all, Nat.sub_0_r, app_nil_r, drop_0, take_app_length.
    apply strip_loop_plain. unfold includes. by rewrite Hs.
Qed.

(** Text without an ESC holds no prefix. *)
Lemma no_ESC_no_prefix s : ESC ∉ s → includes s OSC_PROGRESS_PREFIX = false.
Proof.
  intros Hs. apply includes_false. intros j Hocc. apply Hs.
  specialize (Hocc 0 ESC eq_refl). by apply list_elem_of_lookup_2 in Hocc.
Qed.

(** C3.  When the text is well-terminated frames interleaved with plain
    text (the surrounding text, put together, holds no OSC 9;4 prefix, as
    when it holds no ESC), [stripOscProgress] returns the surrounding text
    and nothing else; when the text has a prefix with no terminator after
    it, everything from that prefix on is removed: the result is what
    stripping the text before the prefix gives, the text before the prefix
    itself when that is plain. *)
Theorem strip_removes_frames (p0 : jsstring) (fs : list Piece)
    (pre rest : jsstring) :
  forallb well_terminated fs = true →
  includes (surrounding p0 fs) OSC_PROGRESS_PREFIX = false →
  has_terminator rest = false →
  stripOscProgress (interleave p0 fs) = surrounding p0 fs
  ∧ stripOscProgress (pre ++ OSC_PROGRESS_PREFIX ++ rest)
    = stripOscProgress pre
  ∧ (includes pre OSC_PROGRESS_PREFIX = false →
     stripOscProgress (pre ++ OSC_PROGRESS_PREFIX ++ rest) = pre).
Proof.
  intros Hwt Hplain Hrest. unfold stripOscProgress.
  split; [by apply strip_interleave|].
  split; [by apply strip_open_prefix|].
  intros Hpre. rewrite strip_open_prefix by done.
  by apply strip_loop_plain.
Qed.

End Strip.

Lemma strip_removes_frames_witness :
  stripOscProgress
    (str "pre" ++ OSC_PROGRESS_PREFIX ++ str "3;;Waiting" ++ OSC_PROGRESS_ST
     ++ str "mid" ++ OSC_PROGRESS_PREFIX ++ str "1;5;Downloading"
     ++ OSC_PROGRESS_BEL ++ str "post") = str "premidpost"
  ∧ stripOscProgress (str "pre" ++ OSC_PROGRESS_PREFIX ++ str "1;50;Xpost")
    = str "pre".
Proof.
  pose proof (strip_removes_frames (str "pre")
    [ (str "3;;Waiting", st, str "mid");
      (str "1;5;Downloading", bel, str "post") ]
    (str "pre") (str "1;50;Xpost") eq_refl eq_refl eq_refl)
    as (H1 & _ & H2).
  split; [exact H1 | exact (H2 eq_refl)].
Defined.

(** Text on the two sides of a removed frame can form a prefix; the next
    round removes it, here to the end of the string. *)
Example strip_joined_prefix :
  stripOscProgress
    (str "a" ++ [ESC] ++ str "]9" ++ OSC_PROGRESS_PREFIX ++ str "1;5;X"
     ++ OSC_PROGRESS_BEL ++ str ";4;b")
  = str "a".
Proof. reflexivity. Qed.

(** ** Stripping: what is kept *)

Section Kept.

Implicit Types (text current : jsstring).

Lemma strip_round_sublist current start :
  indexOf current OSC_PROGRESS_PREFIX 0 = Some start →
  slice current 0 start ++ slice_from current (cutEnd current start)
  `sublist_of` current.
Proof.
  intros [H1 _]%cutEnd_after. unfold slice, slice_from.
  rewrite Nat.sub_0_r, drop_0.
  trans (take start current ++ drop start current); [|by rewrite take_drop].
  apply sublist_app; [done|].
  replace (cutEnd current start)
    with (start + (cutEnd current start - start)) by lia.
  rewrite <- drop_drop. apply sublist_drop.
Qed.

Lemma strip_loop_sublist current : strip_loop current `sublist_of` current.
Proof.
  remember (length current) as n eqn:Hn. revert current Hn.
  induction (lt_wf n) as [n _ IH]. intros current ->.
  rewrite strip_loop_round.
  destruct (indexOf current OSC_PROGRESS_PREFIX 0) as [start|] eqn:E; [|done].
  etrans; [|by apply strip_round_sublist].
  eapply IH; [|reflexivity]. by apply strip_round_shorter.
Qed.

(** X5.  [stripOscProgress] only deletes: its output is the input with
    some code units left out, the others in their order. *)
Theorem strip_is_sublist text : stripOscProgress text `sublist_of` text.
Proof. apply strip_loop_sublist. Qed.

Lemma strip_round_length current start :
  indexOf current OSC_PROGRESS_PREFIX 0 = Some start →
  length (slice current 0 start
          ++ slice_from current (cutEnd current start)) + prefixLen
  ≤ length current.
Proof.
  intros [H1 H2]%cutEnd_after. unfold slice, slice_from.
  rewrite length_app, length_take, !length_drop. lia.
Qed.

(** X4.  [stripOscProgress] returns its input unchanged exactly when the
    input contains no prefix; when it contains one, the output is shorter
    by the length of the prefix at least. *)
Theorem strip_unchanged_iff text :
  (stripOscProgress text = text ↔ includes text OSC_PROGRESS_PREFIX = false)
  ∧ (includes text OSC_PROGRESS_PREFIX = true →
     length (stripOscProgress text) + prefixLen ≤ length text).
Proof.
  unfold stripOscProgress. split; [split|].
  - intros <-. apply strip_loop_no_prefix.
  - apply strip_loop_plain.
  - unfold includes. rewrite strip_loop_round.
    destruct (indexOf text OSC_PROGRESS_PREFIX 0) as [start|] eqn:E; [|done].
    intros _. pose proof (strip_round_length _ _ E) as Hlen.
    pose proof (sublist_length _ _
      (strip_loop_sublist (slice text 0 start
                           ++ slice_from text (cutEnd text start)))).
    lia.
Qed.

(** X6.  [sanitizeOscProgress] leaves no frame for the scanner to find
    when asked to strip, returns its input when asked to keep, and in both
    cases applying it again changes nothing. *)
Theorem sanitize_fixed_point text (keepOsc : bool) :
  sanitizeOscProgress (sanitizeOscProgress text keepOsc) keepOsc
  = sanitizeOscProgress text keepOsc
  ∧ findOscProgressSequences (sanitizeOscProgress text false) = []
  ∧ sanitizeOscProgress text true = text.
Proof.
  split; [|split; [|done]].
  - destruct keepOsc; [done|]. simpl. unfold stripOscProgress.
    apply strip_loop_plain, strip_loop_no_prefix.
  - simpl. unfold stripOscProgress, findOscProgressSequences.
    rewrite find_loop_round.
    destruct (decide (0 < length (strip_loop text))); [|done].
    pose proof (strip_loop_no_prefix text) as Hno. unfold includes in Hno.
    by destruct (indexOf (strip_loop text) OSC_PROGRESS_PREFIX 0).
Qed.

End Kept.

(** ** Numbers *)

Section Numbers.

Implicit Types (q : Qc) (z : Z) (x : number).

Lemma qz_le a b : (qz a ≤ qz b)%Qc ↔ (a ≤ b)%Z.
Proof.
  unfold qz, Qcle. simpl. rewrite !Qred_correct. by rewrite <- Zle_Qle.
Qed.

Lemma qz_inj a b : qz a = qz b → a = b.
Proof.
  intros H. apply Z.le_antisymm; apply qz_le; rewrite H; apply Qcle_refl.
Qed.

Lemma of_Z_inj a b : of_Z a = of_Z b → a = b.
Proof.
  intros Heq. apply qz_inj.
  by apply (f_equal (λ x, match x with Fin q => q | _ => 0%Qc end)) in Heq.
Qed.

Lemma Qfloor_qz z : Qfloor (qz z) = z.
Proof.
  unfold qz. simpl. rewrite (Qfloor_comp _ _ (Qred_correct _)).
  apply Qfloor_Z.
Qed.

Lemma round_le q z : (q ≤ qz z)%Qc → (Qfloor (q + half)%Qc ≤ z)%Z.
Proof.
  intros H.
  assert (Hh : (q + half ≤ qz z + half)%Qc) by by apply Qcplus_le_mono_r.
  apply Qfloor_resp_le in Hh. etrans; [exact Hh|].
  unfold qz, half, Qcplus. simpl.
  rewrite (Qfloor_comp _ _ (Qred_correct _)).
  rewrite (Qfloor_comp _ (inject_Z z + (1 # 2))%Q).
  2:{ by rewrite !Qred_correct. }
  pose proof (Qlt_floor (inject_Z z + (1 # 2))%Q) as Hlt.
  assert (inject_Z z + (1 # 2) < inject_Z (z + 1))%Q as Hz.
  { rewrite inject_Z_plus. apply Qplus_lt_r. reflexivity. }
  destruct (Z_le_gt_dec (Qfloor (inject_Z z + (1 # 2))%Q) z) as [|Hgt];
    [done|exfalso].
  assert (inject_Z (z + 1) <= inject_Z (Qfloor (inject_Z z + (1 # 2))))%Q
    as Hc by (rewrite <- Zle_Qle; lia).
  pose proof (Qfloor_le (inject_Z z + (1 # 2))%Q) as Hfl.
  apply (Qlt_irrefl (inject_Z (z + 1))).
  eapply Qle_lt_trans; [exact Hc|]. eapply Qle_lt_trans; [exact Hfl|done].
Qed.

Lemma round_ge q z : (qz z ≤ q)%Qc → (z ≤ Qfloor (q + half)%Qc)%Z.
Proof.
  intros H. rewrite <- (Qfloor_qz z) at 1. apply Qfloor_resp_le.
  change (qz z ≤ q + half)%Qc. apply (Qcle_trans _ q); [exact H|].
  rewrite <- (Qcplus_0_r q) at 1. apply Qcplus_le_mono_l. by vm_compute.
Qed.

Lemma Math_min_of_Z a b : Math_min (of_Z a) (of_Z b) = of_Z (Z.min a b).
Proof.
  unfold Math_min, of_Z. fold (qz a) (qz b). case_bool_decide as H.
  - rewrite qz_le in H. rewrite Z.min_l by done. reflexivity.
  - rewrite qz_le in H. rewrite Z.min_r by lia. reflexivity.
Qed.

Lemma Math_max_of_Z a b : Math_max (of_Z a) (of_Z b) = of_Z (Z.max a b).
Proof.
  unfold Math_max, of_Z. fold (qz a) (qz b). case_bool_decide as H.
  - rewrite qz_le in H. rewrite Z.max_r by done. reflexivity.
  - rewrite qz_le in H. rewrite Z.max_l by lia. reflexivity.
Qed.

Lemma Math_round_of_Z z : Math_round (of_Z z) = of_Z z.
Proof.
  unfold Math_round, of_Z. fold (qz z) half.
  replace (Qfloor (qz z + half)%Qc) with z; [reflexivity|]. symmetry.
  apply Z.le_antisymm; [apply round_le | apply round_ge]; apply Qcle_refl.
Qed.

Lemma clampRound_of_Z z :
  clampRound (of_Z z) = of_Z (Z.max 0 (Z.min 100 z)).
Proof.
  unfold clampRound.
  by rewrite Math_round_of_Z, Math_min_of_Z, Math_max_of_Z.
Qed.

(** [clampRound] of anything is NaN or an integer from 0 to 100. *)
Lemma clampRound_range x : percent_upto 100 (clampRound x).
Proof.
  unfold clampRound. destruct x as [|[|]|q]; simpl Math_round.
  - by left.
  - right. exists 0%Z. split; [lia|]. simpl. done.
  - right. exists 100%Z. split; [lia|]. simpl. done.
  - right. rewrite Math_min_of_Z, Math_max_of_Z.
    eexists; split; [|reflexivity]. lia.
Qed.

(** Below the cap of 99 the clamp never gives 100. *)
Lemma clampRound_capped x :
  percent_upto 99 (clampRound (Math_min (of_Z 99) x)).
Proof.
  destruct x as [|[|]|q].
  - by left.
  - right. exists 0%Z. split; [lia|]. done.
  - right. exists 99%Z. split; [lia|].
    change (Math_min (of_Z 99) (Inf false)) with (of_Z 99).
    by rewrite clampRound_of_Z.
  - right. unfold Math_min, of_Z. fold (qz 99).
    assert (∃ q', (q' ≤ qz 99)%Qc
              ∧ (if bool_decide (qz 99 ≤ q)%Qc then Fin (qz 99) else Fin q)
                = Fin q') as (q' & Hq' & ->).
    { case_bool_decide as H; eexists; (split; [|reflexivity]).
      - apply Qcle_refl.
      - apply Qclt_le_weak. by apply Qcnot_le_lt. }
    unfold clampRound, Math_round. fold half.
    rewrite Math_min_of_Z, Math_max_of_Z.
    eexists; split; [|reflexivity].
    pose proof (round_le _ _ Hq'). lia.
Qed.

Lemma clampRound_capped_id x :
  not_negative x →
  clampRound (Math_min (of_Z 99) x) = Math_round (Math_min (of_Z 99) x).
Proof.
  destruct x as [|[|]|q]; simpl not_negative; intros Hx.
  - reflexivity.
  - done.
  - change (Math_min (of_Z 99) (Inf false)) with (of_Z 99).
    by rewrite clampRound_of_Z, Math_round_of_Z.
  - unfold Math_min, of_Z. fold (qz 99).
    assert (∃ q', (qz 0 ≤ q')%Qc ∧ (q' ≤ qz 99)%Qc
              ∧ (if bool_decide (qz 99 ≤ q)%Qc then Fin (qz 99) else Fin q)
                = Fin q') as (q' & Hlo & Hhi & ->).
    { case_bool_decide as H; eexists; (split; [|split; [|reflexivity]]).
      - by apply qz_le.
      - apply Qcle_refl.
      - exact Hx.
      - apply Qclt_le_weak. by apply Qcnot_le_lt. }
    unfold clampRound, Math_round. fold half.
    rewrite Math_min_of_Z, Math_max_of_Z.
    pose proof (round_le _ _ Hhi). pose proof (round_ge _ _ Hlo).
    rewrite Z.min_r, Z.max_r by lia. reflexivity.
Qed.

(** Below the cap of 99 the upper clamp does nothing: what is left of
    [clampRound] is the lower clamp at 0. *)
Lemma clampRound_capped_floor x :
  clampRound (Math_min (of_Z 99) x)
  = Math_max (of_Z 0) (Math_round (Math_min (of_Z 99) x)).
Proof.
  destruct x as [|[|]|q].
  - reflexivity.
  - reflexivity.
  - change (Math_min (of_Z 99) (Inf false)) with (of_Z 99).
    by rewrite clampRound_of_Z, Math_round_of_Z, Math_max_of_Z.
  - unfold Math_min, of_Z. fold (qz 99).
    assert (∃ q', (q' ≤ qz 99)%Qc
              ∧ (if bool_decide (qz 99 ≤ q)%Qc then Fin (qz 99) else Fin q)
                = Fin q') as (q' & Hhi & ->).
    { case_bool_decide as H; eexists; (split; [|reflexivity]).
      - apply Qcle_refl.
      - apply Qclt_le_weak. by apply Qcnot_le_lt. }
    unfold clampRound, Math_round. fold half.
    rewrite Math_min_of_Z. pose proof (round_le _ _ Hhi).
    by rewrite Z.min_r by lia.
Qed.

End Numbers.

(** ** Clamping and rounding *)

Section Clamp.

Implicit Types (q : Qc) (z : Z) (x : number).

Lemma Qfloor_between q z :
  (qz z ≤ q)%Qc → (q < qz (z + 1))%Qc → Qfloor q = z.
Proof.
  intros Hlo Hhi. apply Z.le_antisymm.
  - destruct (Z_le_gt_dec (Qfloor q) z) as [|Hgt]; [done|exfalso].
    apply (Qclt_not_le _ _ Hhi). apply (Qcle_trans _ (qz (Qfloor q))).
    + apply qz_le. lia.
    + unfold qz, Qcle. simpl. rewrite Qred_correct. apply Qfloor_le.
  - rewrite <- (Qfloor_qz z) at 1. by apply Qfloor_resp_le.
Qed.

(** X9.  [send] rounds a finite percent to the nearest integer, a tie
    going up, and then clamps it into 0..100: a percent [q] with
    [z - 1/2 <= q < z + 1/2] is written as [max 0 (min 100 z)]. *)
Theorem clampRound_nearest q z :
  (qz z - half ≤ q)%Qc → (q < qz z + half)%Qc →
  clampRound (Fin q) = of_Z (Z.max 0 (Z.min 100 z)).
Proof.
  intros Hlo Hhi. unfold clampRound, Math_round. fold half.
  rewrite (Qfloor_between (q + half) z).
  - by rewrite Math_min_of_Z, Math_max_of_Z.
  - replace (qz z) with (qz z - half + half)%Qc by ring.
    by apply Qcplus_le_mono_r.
  - replace (qz (z + 1)) with (qz z + half + half)%Qc.
    + by apply Qcplus_lt_mono_r.
    + apply Qc_is_canon. unfold qz, half. simpl.
      rewrite !Qred_correct. rewrite inject_Z_plus. ring.
Qed.

(** X10.  Whatever number [send] is given, the percent it writes is NaN
    or an integer from 0 to 100; it is NaN only for NaN; and clamping and
    rounding a written percent again changes nothing. *)
Theorem clampRound_total x :
  percent_upto 100 (clampRound x)
  ∧ (clampRound x = NaN ↔ x = NaN)
  ∧ clampRound (clampRound x) = clampRound x.
Proof.
  split; [apply clampRound_range|].
  destruct (clampRound_range x) as [HN|(z & Hz & Hx)].
  - split; [|by rewrite HN]. split; [|by intros ->].
    intros _. destruct x as [|[|]|q]; try done.
    unfold clampRound, Math_round in HN.
    by rewrite Math_min_of_Z, Math_max_of_Z in HN.
  - rewrite Hx. split.
    + split; [done|]. intros ->. done.
    + rewrite clampRound_of_Z. f_equal. lia.
Qed.

End Clamp.

Lemma clampRound_nearest_witness :
  clampRound (Fin (Q2Qc (5 # 2))) = of_Z 3.
Proof.
  apply (clampRound_nearest (Q2Qc (5 # 2)) 3); by vm_compute.
Defined.

(** ** One-shot emitter *)

Section Emitter.

Context `{Host}.
Implicit Types (e : Emitter) (ev : Event) (evs : list Event)
  (options : OscProgressOptions) (x : number).

Lemma step_same e ev : same_session e (step e ev).
Proof.
  destruct ev as [now|]; simpl.
  - unfold tick. by destruct (timer e).
  - unfold stop. destruct (mode e) eqn:Hm; try done.
    by destruct (stopped e).
Qed.

Lemma run_cons e ev evs : run e (ev :: evs) = run (step e ev) evs.
Proof. reflexivity. Qed.

Lemma run_same e evs : same_session e (run e evs).
Proof.
  revert e; induction evs as [|ev evs IH]; intros e; [done|].
  rewrite run_cons. destruct (IH (step e ev)) as (? & ? & ? & ? & ? & ?).
  destruct (step_same e ev) as (? & ? & ? & ? & ? & ?).
  unfold same_session. repeat split; congruence.
Qed.

(** In determinate mode the interval is live until [stop] is called. *)
Lemma run_timer e evs :
  mode e = Determinate → timer e = negb (stopped e) →
  timer (run e evs) = negb (stopped (run e evs)).
Proof.
  revert e; induction evs as [|ev evs IH]; intros e Hm Ht; [done|].
  rewrite run_cons. apply IH; [by rewrite (proj1 (step_same e ev))|].
  destruct ev as [now|]; simpl.
  - unfold tick. destruct (timer e) eqn:E; simpl; congruence.
  - unfold stop. rewrite Hm. destruct (stopped e) eqn:E; simpl; congruence.
Qed.

Lemma target_floor (targetMs : number) :
  Math_max targetMs (of_Z 1000) = NaN
  ∨ Math_max targetMs (of_Z 1000) = Inf false
  ∨ ∃ t, (qz 1000 ≤ t)%Qc ∧ Math_max targetMs (of_Z 1000) = Fin t.
Proof.
  destruct targetMs as [|[|]|q]; simpl; auto.
  - right; right. exists (qz 1000). split; [apply Qcle_refl|done].
  - right; right. fold (qz 1000). case_bool_decide as Hq.
    + exists (qz 1000). split; [apply Qcle_refl|done].
    + exists q. split; [|done]. apply Qclt_le_weak. by apply Qcnot_le_lt.
Qed.

(** With the clock not behind its reading at the start, the ramp value
    is NaN or not negative. *)
Lemma ramp_not_negative (d : Z) (targetMs : number) :
  (0 ≤ d)%Z →
  not_negative
    (mul (div (of_Z d) (Math_max targetMs (of_Z 1000))) (of_Z 100)).
Proof.
  intros Hd. assert (Hq : (0 ≤ qz d)%Qc) by by apply (qz_le 0 d).
  assert (H100 : (0 ≤ qz 100)%Qc) by by apply (qz_le 0 100).
  destruct (target_floor targetMs) as [->|[->|(t & Ht & ->)]];
    unfold of_Z; fold (qz d) (qz 100); cbn [div mul not_negative].
  - done.
  - apply fround_nonneg. by apply Qcmult_nonneg_nonneg.
  - assert (Hpos : (0 < t)%Qc).
    { eapply Qclt_le_trans; [|exact Ht]. by vm_compute. }
    assert (Hne : t ≠ 0%Qc).
    { intros ->. by apply (Qclt_not_eq _ _ Hpos). }
    rewrite bool_decide_eq_false_2 by done.
    apply fround_nonneg, Qcmult_nonneg_nonneg; [|done].
    apply fround_nonneg.
    apply (Qcmult_lt_0_le_reg_r _ _ t Hpos).
    by rewrite Qcmult_0_l, test_field.
Qed.

Lemma percent_upto_not_100 x :
  percent_upto 99 x → Number_toString x ≠ str "100".
Proof.
  intros [->|(z & Hz & ->)]; [done|].
  assert (Hall : forallb
            (λ z, negb (bool_decide (Number_toString (of_Z z) = str "100")))
            (seqZ 0 100) = true) by by vm_compute.
  rewrite forallb_forall in Hall.
  specialize (Hall z). rewrite <- list_elem_of_In, elem_of_seqZ in Hall.
  specialize (Hall ltac:(lia)). apply negb_true_iff in Hall.
  by apply bool_decide_eq_false in Hall.
Qed.

Lemma writes_send e state percent :
  writes (send e state (Some percent)) =
  writes e ++ [frame state (Some (clampRound percent)) (cleanLabel e)
                     (em_end e)].
Proof. reflexivity. Qed.

Lemma run_app e evs1 evs2 : run e (evs1 ++ evs2) = run (run e evs1) evs2.
Proof. apply foldl_app. Qed.

(** Until [stop] is called the interval is live and each tick writes one
    frame. *)
Lemma run_ticks e evs :
  Stop ∉ evs → mode e = Determinate → timer e = true → stopped e = false →
  timer (run e evs) = true ∧ stopped (run e evs) = false
  ∧ length (writes (run e evs)) = length (writes e) + length evs.
Proof.
  revert e; induction evs as [|ev evs IH]; intros e Hno Hm Ht Hst.
  { simpl. repeat split; try done; lia. }
  apply not_elem_of_cons in Hno as [Hev Hno].
  rewrite run_cons. destruct ev as [now|]; [|done]. cbn [step].
  destruct (IH (tick e now)) as (H1 & H2 & H3); try done.
  - pose proof (proj1 (step_same e (Tick now))) as Hm'.
    cbn [step] in Hm'. congruence.
  - unfold tick. by rewrite Ht.
  - unfold tick. by rewrite Ht.
  - repeat split; try done. rewrite H3. unfold tick. rewrite Ht.
    cbv zeta. rewrite writes_send, length_app. simpl. lia.
Qed.

Lemma send_capped e state percent :
  writes_capped e → percent_upto 99 (clampRound percent) →
  writes_capped (send e state (Some percent)).
Proof.
  intros He Hp w. simpl. intros [Hw| ->%list_elem_of_singleton]%elem_of_app.
  - by apply He.
  - exists state, (clampRound percent).
    split; [done|]. split; [done|]. by apply percent_upto_not_100.
Qed.

Lemma zero_capped : percent_upto 99 (clampRound (of_Z 0)).
Proof. rewrite clampRound_of_Z. right. exists 0%Z. split; [lia|done]. Qed.

Lemma step_capped e ev :
  mode e = Determinate → writes_capped e → writes_capped (step e ev).
Proof.
  intros Hm He. destruct ev as [now|]; simpl.
  - unfold tick. destruct (timer e); [|done].
    apply send_capped; [done | apply clampRound_capped].
  - unfold stop. rewrite Hm. destruct (stopped e); [done|].
    apply (send_capped _ 0%N (of_Z 0)); [done | apply zero_capped].
Qed.

Lemma run_capped e evs :
  mode e = Determinate → writes_capped e → writes_capped (run e evs).
Proof.
  revert e; induction evs as [|ev evs IH]; intros e Hm He; [done|].
  rewrite run_cons. apply IH; [by rewrite (proj1 (step_same e ev))|].
  by apply step_capped.
Qed.

Lemma start_determinate options now0 :
  supportsOscProgress (default process_env (Opt.env options))
    (default process_stdout_isTTY (Opt.isTty options))
    (Opt.support options) = true →
  truthy_bool (Opt.indeterminate options) = false →
  let e0 := startOscProgress options now0 in
  mode e0 = Determinate ∧ timer e0 = true ∧ stopped e0 = false
  ∧ startedAt e0 = now0
  ∧ target e0 = Math_max (default (of_Z (10 * 60000)) (Opt.targetMs options))
                         (of_Z 1000)
  ∧ em_state e0 = default 1%N (Opt.state options)
  ∧ writes e0 = [frame (em_state e0) (Some (of_Z 0)) (cleanLabel e0)
                       (em_end e0)].
Proof.
  intros Hs Hi. unfold startOscProgress. rewrite Hs, Hi. simpl.
  repeat split; done.
Qed.

(** In determinate mode a second [stop] does nothing. *)
Lemma stop_determinate_idempotent e :
  mode e = Determinate → stop (stop e) = stop e.
Proof.
  intros Hm. unfold stop at 1. 
  assert (mode (stop e) = Determinate) as ->
    by (unfold stop; rewrite Hm; by destruct (stopped e)).
  assert (stopped (stop e) = true) as ->; [|done].
  unfold stop. rewrite Hm. by destruct (stopped e) eqn:E.
Qed.

(** In determinate mode nothing happens after the first [stop]. *)
Lemma determinate_stop_is_final e evs :
  mode e = Determinate → timer e = negb (stopped e) →
  run (stop e) evs = stop e.
Proof.
  intros Hm Hlive.
  assert (Hs : mode (stop e) = Determinate ∧ stopped (stop e) = true
               ∧ timer (stop e) = false).
  { unfold stop. rewrite Hm.
    destruct (stopped e) eqn:E; [by rewrite Hlive | done]. }
  revert Hs. generalize (stop e) as e'. clear e Hm Hlive.
  induction evs as [|ev evs IH]; intros e' (Hm & Hs & Ht); [done|].
  rewrite run_cons.
  assert (step e' ev = e') as ->; [|by apply IH].
  destruct ev as [now|]; simpl.
  - unfold tick. by rewrite Ht.
  - unfold stop. by rewrite Hm, Hs.
Qed.

(** In indeterminate mode every [stop] writes a clearing frame. *)
Lemma stop_indeterminate_writes e :
  mode e = Indeterminate →
  mode (stop e) = Indeterminate
  ∧ writes (stop e) =
    writes e ++ [frame 0 (Some (of_Z 0)) (cleanLabel e) (em_end e)].
Proof.
  intros Hm. unfold stop. rewrite Hm.
  split; [done|]. rewrite writes_send. by rewrite clampRound_of_Z.
Qed.

(** In determinate mode the interval is cleared once [stop] was
    called. *)
Lemma run_stopped e evs :
  mode e = Determinate → timer e = negb (stopped e) → Stop ∈ evs →
  timer (run e evs) = false ∧ stopped (run e evs) = true.
Proof.
  intros Hm Hlive (l1 & l2 & ->)%list_elem_of_split.
  rewrite run_app, run_cons. cbn [step].
  destruct (run_same e l1) as (Hm1 & _).
  pose proof (run_timer e l1 Hm Hlive) as Hlive1.
  rewrite determinate_stop_is_final; [|congruence|done].
  unfold stop. rewrite Hm1, Hm.
  destruct (stopped (run e l1)) eqn:E; [by rewrite Hlive1 | done].
Qed.

(** C8, as the code has it.  In a determinate session on a supported
    terminal the target is [max(targetMs, 1000)].  Until [stop] is called
    every tick of the timer writes one frame, whose percent is
    [min(99, elapsed / target * 100)] rounded and then raised to 0 if it
    is below: the rounded value itself whenever the clock is not behind
    its reading at the start.  No string ever written carries a percent of
    100.  The first [stop] writes one state-0, percent-0 frame; after it
    neither [stop] nor a tick writes anything. *)
Theorem determinate_ramp options (now0 : Z) evs :
  supportsOscProgress (default process_env (Opt.env options))
    (default process_stdout_isTTY (Opt.isTty options))
    (Opt.support options) = true →
  truthy_bool (Opt.indeterminate options) = false →
  let e := run (startOscProgress options now0) evs in
  let ramp now :=
    Math_min (of_Z 99)
      (mul (div (of_Z (now - now0)) (target e)) (of_Z 100)) in
  target e = Math_max (default (of_Z (10 * 60000)) (Opt.targetMs options))
                      (of_Z 1000)
  ∧ (Stop ∉ evs → ∀ now,
       writes (tick e now) =
       writes e ++
       [frame (em_state e)
          (Some (Math_max (of_Z 0) (Math_round (ramp now))))
          (cleanLabel e) (em_end e)])
  ∧ (∀ now, (now0 ≤ now)%Z →
       Math_max (of_Z 0) (Math_round (ramp now)) = Math_round (ramp now))
  ∧ (∀ w, w ∈ writes e →
       ∃ state percent,
         w = frame state (Some percent) (cleanLabel e) (em_end e)
         ∧ percent_upto 99 percent
         ∧ Number_toString percent ≠ str "100")
  ∧ (Stop ∉ evs →
       writes (stop e) =
       writes e ++ [frame 0 (Some (of_Z 0)) (cleanLabel e) (em_end e)])
  ∧ (Stop ∈ evs → stop e = e ∧ ∀ now, tick e now = e)
  ∧ (∀ now, tick (stop e) now = stop e).
Proof.
  intros Hs Hi e ramp.
  destruct (start_determinate options now0 Hs Hi)
    as (Hm & Ht & Hst & Hat & Htg & Hstate & Hw).
  destruct (run_same (startOscProgress options now0) evs)
    as (Em & El & Ee & Es & Etg & Eat). fold e in Em, El, Ee, Es, Etg, Eat.
  assert (Hme : mode e = Determinate) by congruence.
  assert (Hlive0 : timer (startOscProgress options now0)
                   = negb (stopped (startOscProgress options now0)))
    by by rewrite Ht, Hst.
  assert (Hte : timer e = negb (stopped e)) by by apply run_timer.
  assert (Hramp : ∀ now,
            clampRound
              (Math_min (of_Z 99)
                 (mul (div (of_Z (now - startedAt e)) (target e))
                    (of_Z 100)))
            = Math_max (of_Z 0) (Math_round (ramp now))).
  { intros now. rewrite clampRound_capped_floor. unfold ramp.
    by rewrite Eat, Hat. }
  split; [congruence|]. split; [|split; [|split; [|split; [|split]]]].
  - intros Hno now.
    destruct (run_ticks _ evs Hno Hm Ht Hst) as (Hlive & _ & _).
    fold e in Hlive. unfold tick. rewrite Hlive. cbv zeta.
    by rewrite writes_send, Hramp.
  - intros now Hnow. unfold ramp.
    rewrite <- clampRound_capped_floor. apply clampRound_capped_id.
    rewrite Etg, Htg. apply ramp_not_negative. lia.
  - apply run_capped; [done|]. intros w. rewrite Hw.
    intros ->%list_elem_of_singleton.
    exists (em_state (startOscProgress options now0)), (of_Z 0).
    split; [done|]. split; [|done]. right. exists 0%Z. split; [lia|done].
  - intros Hno.
    destruct (run_ticks _ evs Hno Hm Ht Hst) as (_ & Hgo & _).
    fold e in Hgo. unfold stop. rewrite Hme, Hgo.
    rewrite writes_send. by rewrite clampRound_of_Z.
  - intros Hin.
    destruct (run_stopped _ evs Hm Hlive0 Hin) as [Hoff Hdone].
    fold e in Hoff, Hdone. split.
    + unfold stop. by rewrite Hme, Hdone.
    + intros now. unfold tick. by rewrite Hoff.
  - intros now. unfold tick, stop. rewrite Hme.
    destruct (stopped e) eqn:Hstop; [by rewrite Hte | done].
Qed.

End Emitter.

Lemma determinate_ramp_witness :
  let e := run (startOscProgress fetching 0) [Tick 900; Tick 1800] in
  (∀ now,
     writes (tick e now) =
     writes e ++
     [frame (em_state e)
        (Some (Math_max (of_Z 0)
                 (Math_round
                    (Math_min (of_Z 99)
                       (mul (div (of_Z (now - 0)) (target e)) (of_Z 100))))))
        (cleanLabel e) (em_end e)])
  ∧ writes (tick e 2700) =
    writes e ++ [OSC_PROGRESS_PREFIX ++ str "1;99;Fetching" ++ OSC_PROGRESS_ST]
  ∧ writes (stop e) =
    writes e ++ [OSC_PROGRESS_PREFIX ++ str "0;0;Fetching" ++ OSC_PROGRESS_ST]
  ∧ (∀ w, w ∈ writes e →
       ∃ state percent,
         w = frame state (Some percent) (cleanLabel e) (em_end e)
         ∧ percent_upto 99 percent
         ∧ Number_toString percent ≠ str "100").
Proof.
  assert (Hno : Stop ∉ [Tick 900; Tick 1800]).
  { intros Hin. by repeat (apply elem_of_cons in Hin as [Hin|Hin]);
      try apply elem_of_nil in Hin. }
  pose proof (determinate_ramp fetching 0 [Tick 900; Tick 1800]
                eq_refl eq_refl) as (_ & H1 & _ & H3 & H4 & _).
  split; [exact (H1 Hno)|]. split; [by vm_compute|].
  split; [|exact H3]. rewrite (H4 Hno). by vm_compute.
Defined.

(** C8, as stated.  When [Date.now()] is behind its reading at the
    start the elapsed time is negative: here [min(99, elapsed / target *
    100)] rounded is -25, and the tick writes 0. *)
Lemma determinate_ramp_clock_behind :
  let e := startOscProgress fetching 1000 in
  Math_round
    (Math_min (of_Z 99)
       (mul (div (of_Z (500 - startedAt e)) (target e)) (of_Z 100)))
  = of_Z (-25)
  ∧ writes (tick e 500)
    = [ OSC_PROGRESS_PREFIX ++ str "1;0;Fetching" ++ OSC_PROGRESS_ST;
        OSC_PROGRESS_PREFIX ++ str "1;0;Fetching" ++ OSC_PROGRESS_ST ]
  ∧ writes (tick e 500)
    ≠ writes e ++ [frame (em_state e) (Some (of_Z (-25))) (cleanLabel e)
                     (em_end e)].
Proof.
  cbv zeta. split; [by vm_compute|]. split; [by vm_compute|].
  intros Heq. vm_compute in Heq. discriminate.
Defined.

Example determinate_scenario :
  writes (run (startOscProgress fetching 0)
            [Tick 900; Tick 1800; Tick 2700; Stop; Tick 3600; Stop])
  = [ OSC_PROGRESS_PREFIX ++ str "1;0;Fetching" ++ OSC_PROGRESS_ST;
      OSC_PROGRESS_PREFIX ++ str "1;45;Fetching" ++ OSC_PROGRESS_ST;
      OSC_PROGRESS_PREFIX ++ str "1;90;Fetching" ++ OSC_PROGRESS_ST;
      OSC_PROGRESS_PREFIX ++ str "1;99;Fetching" ++ OSC_PROGRESS_ST;
      OSC_PROGRESS_PREFIX ++ str "0;0;Fetching" ++ OSC_PROGRESS_ST ].
Proof. by vm_compute. Qed.

(** C1, on the code.  In indeterminate mode the returned function is not
    guarded by a [stopped] flag as the determinate one is: a second call
    writes a second state-0, percent-0 frame. *)
Lemma stop_twice_indeterminate :
  writes (run (startOscProgress waiting 0) [Stop; Stop])
  = [ OSC_PROGRESS_PREFIX ++ str "3;;Waiting" ++ OSC_PROGRESS_ST;
      OSC_PROGRESS_PREFIX ++ str "0;0;Waiting" ++ OSC_PROGRESS_ST;
      OSC_PROGRESS_PREFIX ++ str "0;0;Waiting" ++ OSC_PROGRESS_ST ].
Proof. by vm_compute. Qed.

Example stop_twice_determinate :
  writes (run (startOscProgress fetching 0) [Tick 950; Stop; Stop])
  = [ OSC_PROGRESS_PREFIX ++ str "1;0;Fetching" ++ OSC_PROGRESS_ST;
      OSC_PROGRESS_PREFIX ++ str "1;48;Fetching" ++ OSC_PROGRESS_ST;
      OSC_PROGRESS_PREFIX ++ str "0;0;Fetching" ++ OSC_PROGRESS_ST ].
Proof. by vm_compute. Qed.

(** ** Whole sessions of the emitter *)

Section Sessions.

Context `{Host}.
Implicit Types (e : Emitter) (ev : Event) (evs : list Event)
  (options : OscProgressOptions) (x : number).

Lemma stops_cons_Tick now evs : stops (Tick now :: evs) = stops evs.
Proof. unfold stops. by rewrite filter_cons_False. Qed.

Lemma stops_cons_Stop evs : stops (Stop :: evs) = S (stops evs).
Proof. unfold stops. by rewrite filter_cons_True. Qed.

Lemma run_idle e evs :
  mode e = Unsupported → timer e = false → run e evs = e.
Proof.
  intros Hm Ht. induction evs as [|ev evs IH]; [done|].
  rewrite run_cons. assert (step e ev = e) as ->; [|done].
  destruct ev as [now|]; simpl.
  - unfold tick. by rewrite Ht.
  - unfold stop. by rewrite Hm.
Qed.

(** X11.  On a terminal that [supportsOscProgress] rejects,
    [startOscProgress] writes nothing, and neither does the function it
    returns, however often it is called. *)
Theorem unsupported_writes_nothing options (now0 : Z) evs :
  supportsOscProgress (default process_env (Opt.env options))
    (default process_stdout_isTTY (Opt.isTty options))
    (Opt.support options) = false →
  writes (run (startOscProgress options now0) evs) = [].
Proof.
  intros Hs. unfold startOscProgress. rewrite Hs. cbn [negb].
  by rewrite run_idle.
Qed.

Lemma start_indeterminate options now0 :
  supportsOscProgress (default process_env (Opt.env options))
    (default process_stdout_isTTY (Opt.isTty options))
    (Opt.support options) = true →
  truthy_bool (Opt.indeterminate options) = true →
  let e0 := startOscProgress options now0 in
  mode e0 = Indeterminate ∧ timer e0 = false
  ∧ writes e0 = [frame 3 None (cleanLabel e0) (em_end e0)].
Proof.
  intros Hs Hi. unfold startOscProgress. rewrite Hs, Hi. cbn [negb].
  repeat split; done.
Qed.

Lemma start_constants options now0 :
  cleanLabel (startOscProgress options now0)
  = sanitizeLabel (default default_label (Opt.label options))
  ∧ em_end (startOscProgress options now0)
    = resolveTerminator (Opt.terminator options).
Proof.
  unfold startOscProgress.
  destruct (supportsOscProgress _ _ _); cbn [negb]; [|done].
  by destruct (truthy_bool (Opt.indeterminate options)).
Qed.

Lemma run_indeterminate e evs :
  mode e = Indeterminate → timer e = false →
  writes (run e evs) =
  writes e ++ replicate (stops evs)
                (frame 0 (Some (of_Z 0)) (cleanLabel e) (em_end e)).
Proof.
  revert e; induction evs as [|ev evs IH]; intros e Hm Ht.
  { simpl. by rewrite app_nil_r. }
  rewrite run_cons. destruct ev as [now|]; cbn [step].
  - rewrite stops_cons_Tick. unfold tick. rewrite Ht. by apply IH.
  - rewrite stops_cons_Stop.
    destruct (stop_indeterminate_writes e Hm) as [Hm' Hw].
    destruct (step_same e Stop) as (_ & Hl & He & _). cbn [step] in Hl, He.
    rewrite IH; [|done|].
    + rewrite Hw, Hl, He, <- app_assoc. done.
    + unfold stop. by rewrite Hm.
Qed.

(** X12.  An indeterminate session writes the state-3 frame without a
    percent when it starts, then one state-0, percent-0 frame for each
    call of the returned function, and nothing else: no timer runs. *)
Theorem indeterminate_session options (now0 : Z) evs :
  supportsOscProgress (default process_env (Opt.env options))
    (default process_stdout_isTTY (Opt.isTty options))
    (Opt.support options) = true →
  truthy_bool (Opt.indeterminate options) = true →
  let cleanLabel := sanitizeLabel (default default_label (Opt.label options)) in
  let end_ := resolveTerminator (Opt.terminator options) in
  writes (run (startOscProgress options now0) evs) =
  frame 3 None cleanLabel end_
  :: replicate (stops evs) (frame 0 (Some (of_Z 0)) cleanLabel end_).
Proof.
  intros Hs Hi.
  destruct (start_indeterminate options now0 Hs Hi) as (Hm & Ht & Hw).
  destruct (start_constants options now0) as [Hl He].
  cbv zeta. rewrite run_indeterminate by done.
  by rewrite Hw, Hl, He.
Qed.

(** X13.  A determinate session writes one frame when it starts and one
    for each tick of the timer until the returned function is called; the
    first call writes the state-0, percent-0 frame, and after it neither a
    tick nor a further call writes anything. *)
Theorem determinate_session options (now0 : Z) evs1 evs2 :
  supportsOscProgress (default process_env (Opt.env options))
    (default process_stdout_isTTY (Opt.isTty options))
    (Opt.support options) = true →
  truthy_bool (Opt.indeterminate options) = false →
  Stop ∉ evs1 →
  let cleanLabel := sanitizeLabel (default default_label (Opt.label options)) in
  let end_ := resolveTerminator (Opt.terminator options) in
  let e0 := startOscProgress options now0 in
  length (writes (run e0 evs1)) = S (length evs1)
  ∧ writes (run e0 (evs1 ++ Stop :: evs2)) =
    writes (run e0 evs1) ++ [frame 0 (Some (of_Z 0)) cleanLabel end_].
Proof.
  intros Hs Hi Hno. cbv zeta.
  destruct (start_determinate options now0 Hs Hi)
    as (Hm & Ht & Hst & _ & _ & _ & Hw).
  destruct (start_constants options now0) as [Hl He].
  destruct (run_ticks _ evs1 Hno Hm Ht Hst) as (Ht1 & Hst1 & Hlen).
  destruct (run_same (startOscProgress options now0) evs1)
    as (Hm1 & Hl1 & He1 & _).
  split; [by rewrite Hlen, Hw|].
  rewrite run_app, run_cons. cbn [step].
  rewrite determinate_stop_is_final; [|congruence|by rewrite Ht1, Hst1].
  unfold stop. rewrite Hm1, Hm, Hst1.
  rewrite writes_send, clampRound_of_Z. cbn [cleanLabel em_end writes].
  by rewrite Hl1, He1, Hl, He.
Qed.

Lemma frame_is_frame st percent L terminator :
  is_frame (frame st percent (sanitizeLabel L) (resolveTerminator terminator)).
Proof.
  destruct (resolveTerminator_tstr terminator) as [k ->].
  exists (frame_body st percent (sanitizeLabel L)), k.
  split; [apply frame_shape|].
  apply framing_free_no_terminator, frame_body_framing_free.
Qed.

Lemma step_frames e ev L terminator :
  cleanLabel e = sanitizeLabel L → em_end e = resolveTerminator terminator →
  Forall is_frame (writes e) → Forall is_frame (writes (step e ev)).
Proof.
  intros Hl He Hw.
  assert (Hsend : ∀ e' st p,
    cleanLabel e' = cleanLabel e → em_end e' = em_end e →
    writes e' = writes e →
    Forall is_frame (writes (send e' st (Some p)))).
  { intros e' st p El Ee Ew. rewrite writes_send, El, Ee, Ew, Hl, He.
    apply Forall_app. split; [done|].
    apply Forall_singleton, frame_is_frame. }
  destruct ev as [now|]; cbn [step].
  - unfold tick. destruct (timer e); [|done]. by apply Hsend.
  - unfold stop. destruct (mode e); [done| |].
    + by apply Hsend.
    + destruct (stopped e); [done|]. by apply Hsend.
Qed.

Lemma run_frames e evs L terminator :
  cleanLabel e = sanitizeLabel L → em_end e = resolveTerminator terminator →
  Forall is_frame (writes e) → Forall is_frame (writes (run e evs)).
Proof.
  revert e; induction evs as [|ev evs IH]; intros e Hl He Hw; [done|].
  rewrite run_cons. destruct (step_same e ev) as (_ & El & Ee & _).
  apply IH; [congruence | congruence |]. by eapply step_frames.
Qed.

Lemma start_frames options now0 :
  Forall is_frame (writes (startOscProgress options now0)).
Proof.
  unfold startOscProgress.
  destruct (supportsOscProgress _ _ _); cbn [negb]; [|constructor].
  destruct (truthy_bool (Opt.indeterminate options)).
  - apply Forall_singleton, frame_is_frame.
  - rewrite writes_send. apply Forall_singleton, frame_is_frame.
Qed.

(** The scanner, started at the first of a run of frames, returns them
    one by one. *)
Lemma find_frames ws pre :
  Forall is_frame ws →
  Seq.raw <$> find_loop (pre ++ concat ws) (length pre) = ws.
Proof.
  intros Hws. revert pre.
  induction Hws as [|w ws (body & k & -> & Hbody) _ IH]; intros pre.
  { rewrite find_loop_round. simpl. rewrite app_nil_r.
    by destruct (decide (length pre < length pre)); [lia|]. }
  cbn [concat]. rewrite <- !(assoc_L (++)).
  set (text := pre ++ OSC_PROGRESS_PREFIX ++ body ++ tstr k ++ concat ws).
  set (E := length pre + prefixLen + length body + length (tstr k)).
  assert (Hlen : length text = E + length (concat ws)).
  { unfold text, E, prefixLen. rewrite !length_app. lia. }
  assert (Hpre : length pre + prefixLen < length text).
  { rewrite Hlen. unfold E. destruct k; simpl; lia. }
  rewrite find_loop_round.
  destruct (decide (length pre < length text)) as [_|Hge]; [|lia].
  unfold text at 1.
  rewrite (indexOf_prefix_at pre (body ++ tstr k ++ concat ws));
    [|done|].
  2:{ intros j Hj Hocc. apply occ_bound in Hocc; [|done].
      unfold OSC_PROGRESS_PREFIX in Hocc. simpl in Hocc. lia. }
  pose proof (frame_earliest pre body k (concat ws) Hbody) as He.
  fold text E in He.
  destruct (earliest_sorted text (length pre + prefixLen) E k) as
    ([e kb] & rest & -> & HE); [lia | done |].
  simpl in HE. subst e. cbn [fmap list_fmap Seq.raw endExclusive].
  f_equal.
  - unfold slice, text, E. rewrite drop_app_length.
    replace (length pre + prefixLen + length body + length (tstr k)
             - length pre)
      with (length (OSC_PROGRESS_PREFIX ++ body ++ tstr k))
      by (unfold prefixLen; rewrite !length_app; lia).
    rewrite !(assoc_L (++)). rewrite take_app_length.
    by rewrite <- !(assoc_L (++)).
  - specialize (IH (pre ++ OSC_PROGRESS_PREFIX ++ body ++ tstr k)).
    rewrite <- !(assoc_L (++)) in IH. fold text in IH.
    replace (length (pre ++ OSC_PROGRESS_PREFIX ++ body ++ tstr k))
      with E in IH
      by (unfold E, prefixLen; rewrite !length_app; lia).
    exact IH.
Qed.

Lemma frames_pieces ws :
  Forall is_frame ws →
  ∃ fs, forallb well_terminated fs = true
        ∧ ∀ p0, interleave p0 fs = p0 ++ concat ws
                ∧ surrounding p0 fs = p0.
Proof.
  induction 1 as [|w ws (body & k & -> & Hbody) _ (fs & Hwt & Hfs)].
  { exists []. split; [done|]. intros p0. simpl. by rewrite app_nil_r. }
  exists ((body, k, []) :: fs). split.
  - simpl. unfold well_terminated at 1. simpl. by rewrite Hbody.
  - intros p0. destruct (Hfs []) as [Hi Hs]. cbn [interleave surrounding].
    rewrite Hi, Hs. cbn [concat]. rewrite app_nil_r.
    by rewrite <- !(assoc_L (++)).
Qed.

(** X14.  The strings a session writes, one after the other, are read
    back by [findOscProgressSequences] as exactly those strings, one match
    each, whatever the label, state, terminator and events; and
    [stripOscProgress] removes all of it. *)
Theorem emitted_log_round_trip options (now0 : Z) evs :
  let log := writes (run (startOscProgress options now0) evs) in
  Seq.raw <$> findOscProgressSequences (concat log) = log
  ∧ stripOscProgress (concat log) = [].
Proof.
  cbv zeta.
  destruct (start_constants options now0) as [Hl He].
  pose proof (run_frames _ evs _ _ Hl He (start_frames options now0)) as Hw.
  split.
  - apply (find_frames _ [] Hw).
  - destruct (frames_pieces _ Hw) as (fs & Hwt & Hfs).
    destruct (Hfs []) as [Hi Hs]. simpl in Hi.
    unfold stripOscProgress. rewrite <- Hi.
    rewrite strip_interleave; [done | done | by rewrite Hs].
Qed.

Lemma Math_min_mono (a b : Qc) :
  (a ≤ b)%Qc →
  ∃ a' b', Math_min (of_Z 99) (Fin a) = Fin a'
           ∧ Math_min (of_Z 99) (Fin b) = Fin b' ∧ (a' ≤ b')%Qc.
Proof.
  intros Hab. unfold Math_min, of_Z. fold (qz 99).
  do 2 case_bool_decide; eexists _, _;
    (split; [reflexivity|split; [reflexivity|]]).
  - apply Qcle_refl.
  - exfalso. apply H1. by apply (Qcle_trans _ a).
  - apply Qclt_le_weak. by apply Qcnot_le_lt.
  - done.
Qed.

Lemma clampRound_mono (a b : Qc) :
  (a ≤ b)%Qc → percent_le (clampRound (Fin a)) (clampRound (Fin b)).
Proof.
  intros Hab. right. unfold clampRound, Math_round. fold half.
  rewrite !Math_min_of_Z, !Math_max_of_Z.
  eexists _, _. split; [reflexivity|]. split; [reflexivity|].
  assert (Hh : (a + half ≤ b + half)%Qc) by by apply Qcplus_le_mono_r.
  apply Qfloor_resp_le in Hh. lia.
Qed.

Lemma capped_mono (a b : Qc) :
  (a ≤ b)%Qc →
  percent_le (clampRound (Math_min (of_Z 99) (Fin a)))
             (clampRound (Math_min (of_Z 99) (Fin b))).
Proof.
  intros (a' & b' & -> & -> & Hab)%Math_min_mono. by apply clampRound_mono.
Qed.

Lemma ramp_mono (targetMs : number) (d1 d2 : Z) :
  fround_monotone → (d1 ≤ d2)%Z →
  let ramp d :=
    clampRound
      (Math_min (of_Z 99)
         (mul (div (of_Z d) (Math_max targetMs (of_Z 1000))) (of_Z 100))) in
  percent_le (ramp d1) (ramp d2).
Proof.
  intros Hmono Hd. cbv zeta.
  assert (Hq : (qz d1 ≤ qz d2)%Qc) by by apply qz_le.
  assert (H100 : (0 ≤ qz 100)%Qc) by by apply (qz_le 0 100).
  destruct (target_floor targetMs) as [->|[->|(t & Ht & ->)]];
    unfold of_Z at 2 3 5 6; fold (qz d1) (qz d2) (qz 100); cbn [div mul].
  - by left.
  - apply capped_mono, Qcle_refl.
  - assert (Hpos : (0 < t)%Qc).
    { eapply Qclt_le_trans; [|exact Ht]. by vm_compute. }
    assert (Hne : t ≠ 0%Qc).
    { intros ->. by apply (Qclt_not_eq _ _ Hpos). }
    rewrite bool_decide_eq_false_2 by done.
    apply capped_mono, Hmono, Qcmult_le_compat_r; [|done].
    apply Hmono, (Qcmult_lt_0_le_reg_r _ _ t Hpos).
    by rewrite !test_field.
Qed.

(** X15.  While the timer of a determinate session runs, the percent a
    tick writes does not go down as the clock goes up, given that the
    host's rounding of the quotient and of the product keeps order. *)
Theorem ramp_monotone options (now0 : Z) evs (now1 now2 : Z) :
  fround_monotone →
  supportsOscProgress (default process_env (Opt.env options))
    (default process_stdout_isTTY (Opt.isTty options))
    (Opt.support options) = true →
  truthy_bool (Opt.indeterminate options) = false →
  (now1 ≤ now2)%Z →
  let e := run (startOscProgress options now0) evs in
  timer e = true →
  ∃ p1 p2,
    writes (tick e now1) =
      writes e ++ [frame (em_state e) (Some p1) (cleanLabel e) (em_end e)]
    ∧ writes (tick e now2) =
      writes e ++ [frame (em_state e) (Some p2) (cleanLabel e) (em_end e)]
    ∧ percent_le p1 p2.
Proof.
  intros Hmono Hs Hi Hnow e Hlive.
  destruct (start_determinate options now0 Hs Hi)
    as (_ & _ & _ & _ & Htg & _).
  destruct (run_same (startOscProgress options now0) evs)
    as (_ & _ & _ & _ & Etg & _). fold e in Etg.
  unfold tick. rewrite Hlive. cbv zeta. rewrite !writes_send.
  eexists _, _. split; [reflexivity|]. split; [reflexivity|].
  rewrite Etg, Htg. apply (ramp_mono _ _ _ Hmono). lia.
Qed.

End Sessions.

Lemma unsupported_writes_nothing_witness :
  writes (run (startOscProgress piped 0) [Tick 900; Stop]) = [].
Proof. apply (unsupported_writes_nothing piped 0); reflexivity. Defined.

Lemma indeterminate_session_witness :
  writes (run (startOscProgress waiting 0) [Tick 900; Stop]) =
  [ frame 3 None (sanitizeLabel (str "Waiting")) OSC_PROGRESS_ST;
    frame 0 (Some (of_Z 0)) (sanitizeLabel (str "Waiting")) OSC_PROGRESS_ST ].
Proof.
  apply (indeterminate_session waiting 0 [Tick 900; Stop]); reflexivity.
Defined.

Lemma determinate_session_witness :
  length (writes (run (startOscProgress fetching 0) [Tick 900; Tick 1800]))
  = 3
  ∧ writes (run (startOscProgress fetching 0)
              ([Tick 900; Tick 1800] ++ Stop :: [Tick 2700; Stop])) =
    writes (run (startOscProgress fetching 0) [Tick 900; Tick 1800])
    ++ [frame 0 (Some (of_Z 0)) (sanitizeLabel (str "Fetching"))
          OSC_PROGRESS_ST].
Proof.
  apply (determinate_session fetching 0 [Tick 900; Tick 1800]
           [Tick 2700; Stop]); [reflexivity | reflexivity |].
  intros Hin. by repeat (apply elem_of_cons in Hin as [Hin|Hin]);
    try apply elem_of_nil in Hin.
Defined.

Lemma ramp_monotone_witness :
  let e := run (startOscProgress fetching 0) [Tick 900] in
  ∃ p1 p2,
    writes (tick e 1000) =
      writes e ++ [frame (em_state e) (Some p1) (cleanLabel e) (em_end e)]
    ∧ writes (tick e 1500) =
      writes e ++ [frame (em_state e) (Some p2) (cleanLabel e) (em_end e)]
    ∧ percent_le p1 p2.
Proof.
  apply (ramp_monotone fetching 0 [Tick 900] 1000 1500);
    [by intros a b | reflexivity | reflexivity | lia | reflexivity].
Defined.

(** ** Stateful controller *)

Section Gate.

Import Controller.
Implicit Types (c : Session) (label : jsstring) (percent : option number).

Lemma emit_proceeds state percent label now c :
  supported c = true →
  gate (lastEmitted c) state percent (sanitizeLabel label) now = true →
  emit false state percent label now c =
  {| supported := supported c; c_end := c_end c; lastSeen := lastSeen c;
     lastEmitted := {| le_label := sanitizeLabel label;
                       le_percent := percent; le_state := Some state;
                       le_timestamp := now;
                       hasEmittedAtLeastOnce := true |};
     stallEnabled := stallEnabled c;
     c_writes := c_writes c
                 ++ [frame state percent (sanitizeLabel label) (c_end c)] |}.
Proof. intros Hs Hg. unfold emit. by rewrite Hs, Hg. Qed.

Lemma emit_suppressed state percent label now c :
  supported c = true →
  gate (lastEmitted c) state percent (sanitizeLabel label) now = false →
  emit false state percent label now c = c.
Proof. intros Hs Hg. unfold emit. by rewrite Hs, Hg. Qed.

Lemma gate_spec last state percent clean now :
  gate last state percent clean now = true ↔
  hasEmittedAtLeastOnce last = false
  ∨ le_state last ≠ Some state
  ∨ clean ≠ le_label last
  ∨ (percent ≠ le_percent last ∧ (150 ≤ now - le_timestamp last)%Z).
Proof.
  unfold gate, THROTTLE.
  rewrite !orb_true_iff, andb_true_iff, negb_true_iff, !bool_decide_eq_true.
  tauto.
Qed.

Lemma setPercent_suppressed label (p : Z) now c last :
  supported c = true → lastEmitted c = last →
  hasEmittedAtLeastOnce last = true → le_state last = Some 1%N →
  le_label last = sanitizeLabel label →
  (now - le_timestamp last < 150)%Z →
  let c' := setPercent label (of_Z p) now c in
  c_writes c' = c_writes c ∧ lastEmitted c' = last ∧ supported c' = true
  ∧ c_end c' = c_end c.
Proof.
  intros Hs <- Hhas Hst Hlbl Ht c'. unfold c', setPercent.
  rewrite emit_suppressed; [done | done |].
  cbn [lastEmitted]. apply not_true_is_false. rewrite gate_spec.
  intros [Hg|[Hg|[Hg|[_ Hg]]]]; [congruence | congruence | congruence | lia].
Qed.

(** C5, on the controller as the specification describes it.  A candidate
    emission that is not forced proceeds exactly when it is the first
    ever, or its state differs from the last one emitted, or its sanitized
    label does, or its percent does and at least 150 time units have
    passed.  So three [setPercent] calls within the throttle interval,
    with increasing percents and one label, write once, and a fourth call
    after the interval writes a second time. *)
Theorem gate_and_throttle c (state : N) percent label (now : Z)
    (first : jsstring) (terminator : option Terminator)
    (p1 p2 p3 p4 t1 t2 t3 t4 : Z) :
  supported c = true →
  (0 ≤ p1 < p2)%Z → (p2 < p3 < p4)%Z → (p4 ≤ 100)%Z →
  (t2 - t1 < 150)%Z → (t3 - t1 < 150)%Z → (150 ≤ t4 - t1)%Z →
  let last := lastEmitted c in
  let proceeds :=
    hasEmittedAtLeastOnce last = false
    ∨ le_state last ≠ Some state
    ∨ sanitizeLabel label ≠ le_label last
    ∨ (percent ≠ le_percent last ∧ (150 ≤ now - le_timestamp last)%Z) in
  let c3 :=
    setPercent label (of_Z p3) t3
      (setPercent label (of_Z p2) t2
         (setPercent label (of_Z p1) t1 (create first terminator))) in
  (proceeds →
   c_writes (emit false state percent label now c)
   = c_writes c ++ [frame state percent (sanitizeLabel label) (c_end c)])
  ∧ (¬ proceeds → emit false state percent label now c = c)
  ∧ c_writes c3
    = [frame 1 (Some (of_Z p1)) (sanitizeLabel label)
         (resolveTerminator terminator)]
  ∧ c_writes (setPercent label (of_Z p4) t4 c3)
    = [frame 1 (Some (of_Z p1)) (sanitizeLabel label)
         (resolveTerminator terminator);
       frame 1 (Some (of_Z p4)) (sanitizeLabel label)
         (resolveTerminator terminator)].
Proof.
  intros Hs Hp12 Hp34 Hp4 Ht2 Ht3 Ht4 last proceeds c3.
  assert (Hclamp : ∀ p, (0 ≤ p ≤ 100)%Z → clampRound (of_Z p) = of_Z p).
  { intros p Hp. rewrite clampRound_of_Z. f_equal. lia. }
  split; [|split].
  - intros Hgo. by rewrite emit_proceeds by (done || by apply gate_spec).
  - intros Hno. apply emit_suppressed; [done|].
    apply not_true_is_false. by rewrite gate_spec.
  - set (c1 := setPercent label (of_Z p1) t1 (create first terminator)).
    set (last1 := {| le_label := sanitizeLabel label;
                     le_percent := Some (of_Z p1);
                     le_state := Some 1%N; le_timestamp := t1;
                     hasEmittedAtLeastOnce := true |}).
    assert (H1 : c_writes c1
                 = [frame 1 (Some (of_Z p1)) (sanitizeLabel label)
                      (resolveTerminator terminator)]
                 ∧ lastEmitted c1 = last1 ∧ supported c1 = true
                 ∧ c_end c1 = resolveTerminator terminator).
    { unfold c1, setPercent.
      rewrite emit_proceeds by (done || (apply gate_spec; by left)).
      cbn [c_writes lastEmitted supported c_end create].
      rewrite (Hclamp p1) by lia. done. }
    destruct H1 as (W1 & L1 & S1 & E1).
    destruct (setPercent_suppressed label p2 t2 c1 last1)
      as (W2 & L2 & S2 & E2); try done.
    destruct (setPercent_suppressed label p3 t3
                (setPercent label (of_Z p2) t2 c1) last1)
      as (W3 & L3 & S3 & E3); try done.
    unfold c3. fold c1.
    set (c3' := setPercent label (of_Z p3) t3
                  (setPercent label (of_Z p2) t2 c1)) in *.
    split; [by rewrite W3, W2, W1|].
    unfold setPercent at 1. rewrite emit_proceeds.
    + cbn [c_writes c_end]. rewrite (Hclamp p4) by lia.
      by rewrite W3, W2, W1, E3, E2, E1.
    + done.
    + cbn [lastEmitted]. rewrite L3. apply gate_spec.
      right; right; right. split; [|done]. rewrite (Hclamp p4) by lia.
      intros Hq. unfold last1 in Hq. cbn [le_percent] in Hq.
      apply (inj Some), of_Z_inj in Hq. lia.
Qed.

End Gate.

Lemma gate_and_throttle_witness :
  let label := str "Downloading" in
  let c3 :=
    Controller.setPercent label (of_Z 3) 0
      (Controller.setPercent label (of_Z 2) 0
         (Controller.setPercent label (of_Z 1) 0
            (Controller.create [] None))) in
  length (Controller.c_writes c3) = 1
  ∧ length (Controller.c_writes (Controller.setPercent label (of_Z 4) 200 c3))
    = 2.
Proof.
  pose proof (gate_and_throttle (Controller.create [] None) 1 None
                (str "Downloading") 0 [] None 1 2 3 4 0 0 0 200
                eq_refl ltac:(lia) ltac:(lia) ltac:(lia) ltac:(lia)
                ltac:(lia) ltac:(lia)) as (_ & _ & H3 & H4).
  cbv zeta in *. rewrite H3, H4. split; reflexivity.
Defined.

(** The tests "dedupes identical updates even after time passes" and "label
    changes bypass throttle". *)
Example controller_dedupes :
  length (Controller.c_writes
    (Controller.setPercent (str "Downloading") (of_Z 10) 200
       (Controller.setPercent (str "Downloading") (of_Z 10) 0
          (Controller.create [] None)))) = 1.
Proof. by vm_compute. Qed.

Example controller_label_change :
  length (Controller.c_writes
    (Controller.setPercent (str "Transcoding") (of_Z 1) 0
       (Controller.setPercent (str "Downloading") (of_Z 1) 0
          (Controller.create [] None)))) = 2.
Proof. by vm_compute. Qed.
